(** * Vocal chess: the voice command parser and the listening session controller

    A shallow embedding of [VoiceController.tsx]: the square normalizer
    [normalizeSquare], the transcript parser [parseVoiceCommand], and the
    event handlers of the [VoiceController] component, followed by the
    properties of the specification that were checked against them.  The
    board of [ChessBoard.tsx] and the handlers of the page of [Game.tsx]
    are embedded as well, with the chess engine as a parameter.

    Transcripts are JavaScript strings.  They are modelled as lists of 8-bit
    characters read as the code units U+0000..U+00FF; on that range the
    white-space class, [toLowerCase] and the case folding of the [i] flag are
    written out below exactly as ECMAScript defines them. *)

From Stdlib Require Import String Ascii List Bool Arith NArith ZArith
  DecimalString Lia.
Import ListNotations.

Local Open Scope list_scope.

(** ** JavaScript strings *)

Module JS.

Definition jsstring := list ascii.

Definition str (s : string) : jsstring := list_ascii_of_string s.

Arguments str s%_string.

Definition code (c : ascii) : N := N_of_ascii c.

Definition jsstring_eqb (a b : jsstring) : bool :=
  if list_eq_dec ascii_dec a b then true else false.

(** [WhiteSpace] and [LineTerminator] code units below U+0100: TAB, LF, VT,
    FF, CR, SP and NBSP.  This is the class of [\s] and of [trim]. *)
Definition isWhiteSpace (c : ascii) : bool :=
  match code c with
  | 9 | 10 | 11 | 12 | 13 | 32 | 160 => true
  | _ => false
  end%N.

Definition in_range (lo hi c : ascii) : bool :=
  (code lo <=? code c)%N && (code c <=? code hi)%N.

(** [String.prototype.toLowerCase], one code unit at a time: A..Z and
    U+00C0..U+00DE except U+00D7 move up by 32. *)
Definition toLowerCaseChar (c : ascii) : ascii :=
  let n := code c in
  if ((65 <=? n) && (n <=? 90)
      || (192 <=? n) && (n <=? 222) && negb (n =? 215))%N
  then ascii_of_N (n + 32) else c.

Definition toLowerCase (s : jsstring) : jsstring := map toLowerCaseChar s.

(** [Canonicalize] of a regular expression with the [i] flag and without
    the [u] flag: the upper-case mapping, kept only when it stays a single
    code unit on the same side of U+0080. *)
Definition canonicalize (c : ascii) : ascii :=
  let n := code c in
  if ((97 <=? n) && (n <=? 122)
      || (224 <=? n) && (n <=? 254) && negb (n =? 247))%N
  then ascii_of_N (n - 32) else c.

Fixpoint trimStart (s : jsstring) : jsstring :=
  match s with
  | c :: s' => if isWhiteSpace c then trimStart s' else s
  | [] => []
  end.

Definition trimEnd (s : jsstring) : jsstring := rev (trimStart (rev s)).

Definition trim (s : jsstring) : jsstring := trimEnd (trimStart s).

(** [s[0]]: [None] stands for [undefined]. *)
Definition charAt0 (s : jsstring) : option ascii := hd_error s.

(** [s.slice(1)] *)
Definition slice1 (s : jsstring) : jsstring := tl s.

(** [a.indexOf(x)]: [None] stands for -1. *)
Fixpoint indexOf (a : list jsstring) (x : jsstring) : option nat :=
  match a with
  | [] => None
  | y :: a' => if jsstring_eqb y x then Some 0
               else option_map S (indexOf a' x)
  end.

(** [s.split(/\s+/)]: the pieces between maximal runs of white space; a
    run at either end of the string leaves an empty piece there, and the
    empty string gives one empty piece.  [skipping] holds inside a run. *)
Fixpoint split_go (skipping : bool) (cur : jsstring) (s : jsstring)
  : list jsstring :=
  match s with
  | [] => [rev cur]
  | c :: s' =>
      if isWhiteSpace c
      then if skipping then split_go true cur s'
           else rev cur :: split_go true [] s'
      else split_go false (c :: cur) s'
  end.

Definition split_ws (s : jsstring) : list jsstring := split_go false [] s.

End JS.
Export JS.

(** ** Regular expressions

    The fragment of ECMAScript regular expressions that the component uses,
    with the backtracking semantics of the language: alternatives are tried
    left to right, quantifiers are greedy, and a search takes the leftmost
    start position that matches. *)

Module Regex.

(** A member of a character class. *)
Inductive citem : Type :=
| CChar (c : ascii)          (* a single character *)
| CRange (lo hi : ascii)     (* lo-hi *)
| CSpace.                    (* \s *)

Definition cclass := list citem.

Inductive regex : Type :=
| RLit (s : jsstring)                (* literal characters *)
| RSet (c : cclass)                  (* [...] *)
| RStar (c : cclass)                 (* [...]* *)
| RPlus (c : cclass)                 (* [...]+ *)
| ROpt (r : regex)                   (* r? *)
| RSeq (r1 r2 : regex)               (* r1 r2 *)
| RAlt (r1 r2 : regex)               (* r1|r2 *)
| RGroup (n : nat) (r : regex)       (* the n-th capturing group *)
| RBol                               (* ^ *)
| REol.                              (* $ *)

Definition captures := list (nat * jsstring).

Fixpoint capture (n : nat) (c : captures) : option jsstring :=
  match c with
  | [] => None
  | (m, s) :: c' => if n =? m then Some s else capture n c'
  end.

Definition item_has (i : citem) (c : ascii) : bool :=
  match i with
  | CChar a => Ascii.eqb a c
  | CRange lo hi => in_range lo hi c
  | CSpace => isWhiteSpace c
  end.

Definition class_has (cl : cclass) (c : ascii) : bool :=
  existsb (fun i => item_has i c) cl.

(** Without the [i] flag a character matches a class that contains it; with
    the flag, a class that contains a character of the same canonical form.
    Such a character is the character itself, its upper case or its lower
    case. *)
Definition class_match (ci : bool) (cl : cclass) (c : ascii) : bool :=
  if ci
  then class_has cl c || class_has cl (canonicalize c)
       || class_has cl (toLowerCaseChar c)
  else class_has cl c.

Definition char_match (ci : bool) (p c : ascii) : bool :=
  if ci then Ascii.eqb (canonicalize p) (canonicalize c) else Ascii.eqb p c.

(** While a match is attempted, [opened] holds the text read so far by
    every group that is still open, innermost first, each in reverse; its
    last entry is the text of the whole match.  [bol] tells whether the
    position is the beginning of the input. *)
Definition consume (c : ascii) (opened : list jsstring) : list jsstring :=
  map (cons c) opened.

Section Matcher.

Context {A : Type}.

(** A continuation receives [bol], the rest of the input, the open groups
    and the captures so far. *)
Definition cont := bool -> jsstring -> list jsstring -> captures -> option A.

(** The literal [l] at the front of [s]. *)
Fixpoint lit_match (ci : bool) (l : jsstring) (bol : bool) (s : jsstring)
    (opened : list jsstring) (caps : captures) (k : cont) : option A :=
  match l with
  | [] => k bol s opened caps
  | p :: l' =>
      match s with
      | c :: s' =>
          if char_match ci p c
          then lit_match ci l' false s' (consume c opened) caps k
          else None
      | [] => None
      end
  end.

(** Greedy [cl*]: take one more character when possible, give it back when
    the rest fails. *)
Fixpoint star_match (ci : bool) (cl : cclass) (bol : bool) (s : jsstring)
    (opened : list jsstring) (caps : captures) (k : cont) : option A :=
  match s with
  | c :: s' =>
      if class_match ci cl c
      then match star_match ci cl false s' (consume c opened) caps k with
           | Some x => Some x
           | None => k bol s opened caps
           end
      else k bol s opened caps
  | [] => k bol s opened caps
  end.

Fixpoint rmatch (ci : bool) (r : regex) (bol : bool) (s : jsstring)
    (opened : list jsstring) (caps : captures) (k : cont) : option A :=
  match r with
  | RLit l => lit_match ci l bol s opened caps k
  | RSet cl =>
      match s with
      | c :: s' =>
          if class_match ci cl c then k false s' (consume c opened) caps
          else None
      | [] => None
      end
  | RStar cl => star_match ci cl bol s opened caps k
  | RPlus cl =>
      match s with
      | c :: s' =>
          if class_match ci cl c
          then star_match ci cl false s' (consume c opened) caps k
          else None
      | [] => None
      end
  | ROpt r1 =>
      match rmatch ci r1 bol s opened caps k with
      | Some x => Some x
      | None => k bol s opened caps
      end
  | RSeq r1 r2 =>
      rmatch ci r1 bol s opened caps
        (fun b s' o c => rmatch ci r2 b s' o c k)
  | RAlt r1 r2 =>
      match rmatch ci r1 bol s opened caps k with
      | Some x => Some x
      | None => rmatch ci r2 bol s opened caps k
      end
  | RGroup n r1 =>
      rmatch ci r1 bol s ([] :: opened) caps
        (fun b s' o c => k b s' (tl o) ((n, rev (hd [] o)) :: c))
  | RBol => if bol then k bol s opened caps else None
  | REol => match s with [] => k bol s opened caps | _ :: _ => None end
  end.

End Matcher.

(** The result of [RegExp.prototype.exec] for a regular expression without
    the [g] flag: the matched text and the captures. *)
Record match_result : Type := MatchResult {
  matched : jsstring;
  groups : captures
}.

Definition group (n : nat) (m : match_result) : option jsstring :=
  capture n (groups m).

(** One attempt at the front of [s]. *)
Definition match_at (ci : bool) (r : regex) (bol : bool) (s : jsstring)
  : option match_result :=
  rmatch ci r bol s [[]] []
    (fun _ _ o c => Some (MatchResult (rev (hd [] o)) c)).

(** The leftmost match in [s]. *)
Fixpoint search (ci : bool) (r : regex) (bol : bool) (s : jsstring)
  : option match_result :=
  match match_at ci r bol s with
  | Some m => Some m
  | None =>
      match s with
      | [] => None
      | _ :: s' => search ci r false s'
      end
  end.

(** [s.match(r)] *)
Definition exec (ci : bool) (r : regex) (s : jsstring) : option match_result :=
  search ci r true s.

(** [r.test(s)] *)
Definition test (ci : bool) (r : regex) (s : jsstring) : bool :=
  match exec ci r s with Some _ => true | None => false end.

(** [s.replace(r, "")] with the [g] flag.  [skip] counts the characters of
    the current match that are still to be dropped.  An empty match
    replaces nothing and the scan moves on by one character. *)
Fixpoint replace_go (ci : bool) (r : regex) (skip : nat) (bol : bool)
    (s : jsstring) : jsstring :=
  match s with
  | [] => []
  | c :: s' =>
      match skip with
      | S n => replace_go ci r n false s'
      | 0 =>
          match match_at ci r bol s with
          | Some m =>
              match length (matched m) with
              | 0 => c :: replace_go ci r 0 false s'
              | S n => replace_go ci r n false s'
              end
          | None => c :: replace_go ci r 0 false s'
          end
      end
  end.

Definition remove_all (ci : bool) (r : regex) (s : jsstring) : jsstring :=
  replace_go ci r 0 true s.

Declare Scope regex_scope.
Delimit Scope regex_scope with re.
Bind Scope regex_scope with regex.
Infix "@@" := RSeq (at level 40, left associativity) : regex_scope.
Infix "|||" := RAlt (at level 50, left associativity) : regex_scope.

End Regex.
Export Regex.

(** ** Objects used as lookup tables

    [fileMap] and [rankMap] are object literals.  Reading a property that
    the literal does not define goes on to [Object.prototype], so the names
    defined there are found as well. *)

Module Obj.

Inductive jsval : Type :=
| VUndefined
| VString (s : jsstring)
| VNative (name : jsstring)      (* a built-in function *)
| VObjectPrototype.              (* the object [Object.prototype] *)

(** The properties of [Object.prototype]; reading [__proto__] runs its
    getter, which gives the prototype of the literal. *)
Definition Object_prototype : list (jsstring * jsval) :=
  [ (str "constructor", VNative (str "Object"));
    (str "hasOwnProperty", VNative (str "hasOwnProperty"));
    (str "isPrototypeOf", VNative (str "isPrototypeOf"));
    (str "propertyIsEnumerable", VNative (str "propertyIsEnumerable"));
    (str "toLocaleString", VNative (str "toLocaleString"));
    (str "toString", VNative (str "toString"));
    (str "valueOf", VNative (str "valueOf"));
    (str "__defineGetter__", VNative (str "__defineGetter__"));
    (str "__defineSetter__", VNative (str "__defineSetter__"));
    (str "__lookupGetter__", VNative (str "__lookupGetter__"));
    (str "__lookupSetter__", VNative (str "__lookupSetter__"));
    (str "__proto__", VObjectPrototype) ].

Fixpoint assoc {V : Type} (l : list (jsstring * V)) (k : jsstring) : option V :=
  match l with
  | [] => None
  | (k', v) :: l' => if jsstring_eqb k' k then Some v else assoc l' k
  end.

(** [o[k]] for an object literal [o] with string values. *)
Definition get (o : list (jsstring * jsstring)) (k : jsstring) : jsval :=
  match assoc o k with
  | Some s => VString s
  | None =>
      match assoc Object_prototype k with
      | Some v => v
      | None => VUndefined
      end
  end.

(** The property key of [s[0]]: the character, or the name [undefined]
    past the end of the string. *)
Definition key_of (c : option ascii) : jsstring :=
  match c with
  | Some a => [a]
  | None => str "undefined"
  end.

Definition toBoolean (v : jsval) : bool :=
  match v with
  | VUndefined => false
  | VString s => negb (jsstring_eqb s [])
  | VNative _ => true
  | VObjectPrototype => true
  end.

(** The text a template literal inserts for a value.  The text of a
    built-in function is the one V8 and JavaScriptCore print; every engine
    prints one that starts with [function]. *)
Definition toString (v : jsval) : jsstring :=
  match v with
  | VUndefined => str "undefined"
  | VString s => s
  | VNative name => str "function " ++ name ++ str "() { [native code] }"
  | VObjectPrototype => str "[object Object]"
  end.

End Obj.

(** ** The command parser *)

Module Voice.

Local Open Scope regex_scope.

Inductive side : Type := kingside | queenside.

(** The result of [parseVoiceCommand]; [None] stands for [null]. *)
Inductive command : Type :=
| Move (from to : jsstring)
| NewGame
| Undo
| Castle (s : side).

Definition ws : cclass := [CSpace].
Definition file_lc : cclass := [CRange "a" "h"].
Definition file_any : cclass := [CRange "a" "h"; CRange "A" "H"].
Definition rank : cclass := [CRange "1" "8"].
Definition promo : cclass := [CChar "q"; CChar "r"; CChar "b"; CChar "n"].

(** [/\s+/g] *)
Definition re_spaces : regex := RPlus ws.

(** [/^[a-hA-H][1-8]$/] *)
Definition re_square : regex := RBol @@ RSet file_any @@ RSet rank @@ REol.

(** [/^([a-hA-H])([1-8])$/] *)
Definition re_square_groups : regex :=
  RBol @@ RGroup 1 (RSet file_any) @@ RGroup 2 (RSet rank) @@ REol.

(** [/to|two|too/g] *)
Definition re_connector : regex :=
  RLit (str "to") ||| RLit (str "two") ||| RLit (str "too").

(** [/^([a-h][1-8])([a-h][1-8])([qrbn])?$/] *)
Definition re_uci : regex :=
  RBol @@ RGroup 1 (RSet file_lc @@ RSet rank)
       @@ RGroup 2 (RSet file_lc @@ RSet rank)
       @@ ROpt (RGroup 3 (RSet promo)) @@ REol.

(** [/new\s*game|reset/i] *)
Definition re_newgame : regex :=
  RLit (str "new") @@ RStar ws @@ RLit (str "game") ||| RLit (str "reset").

(** [/undo|take\s*back/i] *)
Definition re_undo : regex :=
  RLit (str "undo") ||| RLit (str "take") @@ RStar ws @@ RLit (str "back").

(** [/castle|castling/i] *)
Definition re_castle : regex := RLit (str "castle") ||| RLit (str "castling").

(** [/queen|long/i] *)
Definition re_queen : regex := RLit (str "queen") ||| RLit (str "long").

(** [/([a-hA-H]\s*[1-8])\s*(to|two|too)?\s*([a-hA-H]\s*[1-8])/i] *)
Definition re_simple : regex :=
  RGroup 1 (RSet file_any @@ RStar ws @@ RSet rank)
  @@ RStar ws
  @@ ROpt (RGroup 2 (RLit (str "to") ||| RLit (str "two") ||| RLit (str "too")))
  @@ RStar ws
  @@ RGroup 3 (RSet file_any @@ RStar ws @@ RSet rank).

Definition fileMap : list (jsstring * jsstring) :=
  [ (str "a", str "a"); (str "b", str "b"); (str "c", str "c");
    (str "d", str "d"); (str "e", str "e"); (str "f", str "f");
    (str "g", str "g"); (str "h", str "h") ].

Definition rankMap : list (jsstring * jsstring) :=
  [ (str "one", str "1"); (str "two", str "2"); (str "three", str "3");
    (str "four", str "4"); (str "for", str "4"); (str "five", str "5");
    (str "six", str "6"); (str "seven", str "7"); (str "eight", str "8") ].

(** [m[n]] for a group that took part in the match; the groups read below
    always do. *)
Definition group_text (n : nat) (m : match_result) : jsstring :=
  match group n m with
  | Some s => s
  | None => []
  end.

(** [None] stands for [null]. *)
Definition normalizeSquare (input : jsstring) : option jsstring :=
  let cleaned := remove_all false re_spaces (trim input) in
  if test false re_square cleaned then Some (toLowerCase cleaned)
  else
    match exec false re_square_groups cleaned with
    | Some m => Some (toLowerCase (matched m))
    | None =>
        let fileLetter := charAt0 cleaned in
        let rankWord := slice1 cleaned in
        let f := Obj.get fileMap (Obj.key_of fileLetter) in
        let r := Obj.get rankMap rankWord in
        if Obj.toBoolean f && Obj.toBoolean r
        then Some (Obj.toString f ++ Obj.toString r)
        else None
    end.

(** The truth value of a [string | null]. *)
Definition truthy (v : option jsstring) : bool :=
  match v with
  | Some (_ :: _) => true
  | _ => false
  end.

(** [if (from && to) return { type: "move", from, to }] *)
Definition move_of (from to : option jsstring) : option command :=
  match from, to with
  | Some f, Some t => if truthy from && truthy to then Some (Move f t) else None
  | _, _ => None
  end.

(** The last strategy: the two tokens after the token [move]. *)
Definition parse_tokens (t : jsstring) : option command :=
  let tokens := split_ws t in
  match indexOf tokens (str "move") with
  | Some idxMove =>
      if idxMove + 3 <=? length tokens
      then move_of (normalizeSquare (nth (idxMove + 1) tokens []))
                   (normalizeSquare (nth (idxMove + 2) tokens []))
      else None
  | None => None
  end.

(** The fourth strategy, and the last one when it gives nothing. *)
Definition parse_simple (t : jsstring) : option command :=
  match exec true re_simple t with
  | Some simpleMove =>
      match move_of (normalizeSquare (group_text 1 simpleMove))
                    (normalizeSquare (group_text 3 simpleMove)) with
      | Some c => Some c
      | None => parse_tokens t
      end
  | None => parse_tokens t
  end.

Definition clean_of (t : jsstring) : jsstring :=
  remove_all false re_spaces (remove_all false re_connector (toLowerCase t)).

Definition parseVoiceCommand (text : jsstring) : option command :=
  let t := trim text in
  let clean := clean_of t in
  match exec false re_uci clean with
  | Some uciMatch => Some (Move (group_text 1 uciMatch) (group_text 2 uciMatch))
  | None =>
      if test true re_newgame t then Some NewGame
      else if test true re_undo t then Some Undo
      else if test true re_castle t then
        if test true re_queen t then Some (Castle queenside)
        else Some (Castle kingside)
      else parse_simple t
  end.

End Voice.
Export Voice.

(** ** The listening session controller

    The component keeps its state in the [status] and last-command state of
    its parent and in two references.  A handler is a function from the
    state to the next state and the list of effects it performs, in
    order. *)

Module Controller.

Inductive VoiceStatus : Type :=
| idle | ready | listening | processing | error | unsupported.

Inductive effect : Type :=
| Speak (text : jsstring)                (* speak(text) *)
| OnMove (from to : jsstring)            (* onMove(from, to) *)
| OnNewGame                              (* onNewGame() *)
| OnUndo                                 (* onUndo() *)
| RecognitionStart                       (* recognition.start() *)
| RecognitionStop                        (* recognition.stop() *)
| RecognitionAbort                       (* recognition.abort() *)
| ConsoleLog (text : jsstring)
| ConsoleError.

Record state : Type := mkState {
  status : VoiceStatus;            (* the [status] prop, set by [setStatus] *)
  lastCommand : jsstring;          (* the value given to [setLastCommand] *)
  isListeningActive : bool;        (* [isListeningActive.current] *)
  recognitionRef : bool            (* [recognitionRef.current] is not null *)
}.

Definition setStatus (v : VoiceStatus) (st : state) : state :=
  mkState v (lastCommand st) (isListeningActive st) (recognitionRef st).

Definition setLastCommand (cmd : jsstring) (st : state) : state :=
  mkState (status st) cmd (isListeningActive st) (recognitionRef st).

Definition setListeningActive (b : bool) (st : state) : state :=
  mkState (status st) (lastCommand st) b (recognitionRef st).

Definition setRecognitionRef (b : bool) (st : state) : state :=
  mkState (status st) (lastCommand st) (isListeningActive st) b.

(** A call of a callback of the parent ([onMove], [onNewGame], [onUndo])
    either returns or throws; [onMove] throws when the game refuses the
    move. *)
Inductive outcome : Type := returns | throws.

(** The state of a component that has not been mounted yet. *)
Definition initial : state := mkState idle [] false false.

(** The body of [useEffect]; [supported] tells whether the browser has a
    [SpeechRecognition] constructor. *)
Definition mount (supported : bool) (st : state) : state * list effect :=
  if supported
  then (setStatus ready (setRecognitionRef true st),
        [Speak (str "Welcome to vocal chess. Start by making your move.")])
  else (setStatus unsupported st, []).

(** The clean-up function of [useEffect]. *)
Definition unmount (st : state) : state * list effect :=
  (st, if recognitionRef st then [RecognitionAbort] else []).

Definition onstart (st : state) : state * list effect :=
  (setStatus listening st, []).

Definition onend (st : state) : state * list effect :=
  if isListeningActive st then (st, [RecognitionStart])
  else (setStatus ready st, []).

(** The statement after a callback runs only when the callback returns. *)
Definition after (o : outcome) (rest : list effect) : list effect :=
  match o with
  | returns => rest
  | throws => []
  end.

(** [called] is the outcome of the callback that the handler calls, if it
    calls one. *)
Definition onresult (transcript : jsstring) (called : outcome) (st : state)
  : state * list effect :=
  let st' := setLastCommand transcript st in
  (st',
   ConsoleLog transcript ::
   match parseVoiceCommand transcript with
   | None => [Speak (str "Invalid format.")]
   | Some (Move from to) =>
       OnMove from to ::
       after called
         [Speak (str "Move " ++ from ++ str " to " ++ to ++ str " played.")]
   | Some NewGame =>
       OnNewGame :: after called [Speak (str "New game started.")]
   | Some Undo =>
       OnUndo :: after called [Speak (str "Move undone.")]
   | Some (Castle _) => []
   end).

Definition onerror (code : jsstring) (st : state) : state * list effect :=
  if jsstring_eqb code (str "no-speech")
  then (setStatus ready st, [ConsoleError])
  else (setStatus error st, [ConsoleError; Speak (str "An error occurred.")]).

(** [started] is the outcome of [recognition.start()] when the handler
    calls it: the call throws when the recognizer has been started already,
    and the exception is caught and logged.  Nothing is called when there is
    no recognizer. *)
Definition handleToggle (started : outcome) (st : state)
  : state * list effect :=
  match status st with
  | unsupported => (st, [])
  | listening =>
      (setListeningActive false st,
       if recognitionRef st then [RecognitionStop] else [])
  | _ =>
      (setListeningActive true st,
       if recognitionRef st
       then RecognitionStart ::
            match started with
            | returns => []
            | throws => [ConsoleError]
            end
       else [])
  end.

Inductive event : Type :=
| Mount (supported : bool)
| Unmount
| Toggle                  (* a click on the button; [start()] returns *)
| ToggleStartThrows       (* a click on the button; [start()] throws *)
| OnStart
| OnEnd
| OnResult (transcript : jsstring) (called : outcome)
| OnError (code : jsstring).

Definition handle (e : event) (st : state) : state * list effect :=
  match e with
  | Mount supported => mount supported st
  | Unmount => unmount st
  | Toggle => handleToggle returns st
  | ToggleStartThrows => handleToggle throws st
  | OnStart => onstart st
  | OnEnd => onend st
  | OnResult transcript called => onresult transcript called st
  | OnError code => onerror code st
  end.

(** The events are handled one at a time, in the order of their arrival. *)
Fixpoint run (es : list event) (st : state) : state * list effect :=
  match es with
  | [] => (st, [])
  | e :: es' =>
      let (st1, out1) := handle e st in
      let (st2, out2) := run es' st1 in
      (st2, out1 ++ out2)
  end.

Definition is_game_callback (e : effect) : bool :=
  match e with
  | OnMove _ _ | OnNewGame | OnUndo => true
  | _ => false
  end.

Definition is_speech (e : effect) : bool :=
  match e with
  | Speak _ => true
  | _ => false
  end.

End Controller.
Export Controller.

(** ** The texts of a pattern

    What a pattern matches, said without the matcher: the texts of the
    pattern, and the captures that go with each way to read a text. *)

Module Texts.

(** The anchors [^] and [$] say where a text is, not what it is; the texts
    of a pattern are defined for the patterns without them. *)
Fixpoint anchor_free (r : regex) : bool :=
  match r with
  | RLit _ | RSet _ | RStar _ | RPlus _ => true
  | ROpt r1 | RGroup _ r1 => anchor_free r1
  | RSeq r1 r2 | RAlt r1 r2 => anchor_free r1 && anchor_free r2
  | RBol | REol => false
  end.

Fixpoint lang (ci : bool) (r : regex) (x : jsstring) : Prop :=
  match r with
  | RLit l => Forall2 (fun p c => char_match ci p c = true) l x
  | RSet cl => exists c, x = [c] /\ class_match ci cl c = true
  | RStar cl => forallb (class_match ci cl) x = true
  | RPlus cl => x <> [] /\ forallb (class_match ci cl) x = true
  | ROpt r1 => x = [] \/ lang ci r1 x
  | RSeq r1 r2 => exists x1 x2, x = x1 ++ x2 /\ lang ci r1 x1 /\ lang ci r2 x2
  | RAlt r1 r2 => lang ci r1 x \/ lang ci r2 x
  | RGroup _ r1 => lang ci r1 x
  | RBol | REol => False
  end.

(** The captures are listed as the matcher lists them, the group that was
    closed last first. *)
Fixpoint captured (ci : bool) (r : regex) (x : jsstring) (cs : captures)
  : Prop :=
  match r with
  | RLit _ | RSet _ | RStar _ | RPlus _ => cs = [] /\ lang ci r x
  | ROpt r1 => (x = [] /\ cs = []) \/ captured ci r1 x cs
  | RSeq r1 r2 =>
      exists x1 x2 cs1 cs2,
        x = x1 ++ x2 /\ cs = cs2 ++ cs1
        /\ captured ci r1 x1 cs1 /\ captured ci r2 x2 cs2
  | RAlt r1 r2 => captured ci r1 x cs \/ captured ci r2 x cs
  | RGroup n r1 => exists cs1, cs = (n, x) :: cs1 /\ captured ci r1 x cs1
  | RBol | REol => False
  end.

(** The continuation at the end of a pattern: the match is found. *)
Definition the_end : @cont match_result :=
  fun _ _ o c => Some (MatchResult (rev (hd [] o)) c).

End Texts.
Export Texts.

(** ** Vocabulary of the specification *)

Module Spec.

Definition is_file (c : ascii) : bool := in_range "a" "h" c.
Definition is_rank (c : ascii) : bool := in_range "1" "8" c.
Definition is_digit (c : ascii) : bool := in_range "0" "9" c.

Definition is_promotion (c : ascii) : bool :=
  Ascii.eqb c "q" || Ascii.eqb c "r" || Ascii.eqb c "b" || Ascii.eqb c "n".

(** A square in canonical form: a lower-case file letter and a rank digit. *)
Definition canonical_square (s : jsstring) : bool :=
  match s with
  | [f; r] => is_file f && is_rank r
  | _ => false
  end.

(** A square as it is said: a file letter in any case, white space, a
    rank digit. *)
Definition said_square (x : jsstring) : Prop :=
  exists f sp r,
    x = f :: sp ++ [r]
    /\ class_match true file_any f = true
    /\ forallb isWhiteSpace sp = true
    /\ is_rank r = true.

(** A text made of a file letter and of the text of a property that
    [rankMap] does not define and [Object.prototype] does. *)
Definition inherited_square (s : jsstring) : Prop :=
  exists f key v,
    is_file f = true
    /\ Obj.assoc rankMap key = None
    /\ Obj.assoc Obj.Object_prototype key = Some v
    /\ s = f :: Obj.toString v.

(** The spoken move "f1r1 to f2r2". *)
Definition spoken (f1 r1 f2 r2 : ascii) : jsstring :=
  [f1; r1] ++ str " to " ++ [f2; r2].

Definition no_digit (w : jsstring) : bool :=
  forallb (fun c => negb (is_digit c)) w.

Definition not_space (c : ascii) : bool := negb (isWhiteSpace c).

(** The characters of the connector words. *)
Definition is_tow (c : ascii) : bool :=
  Ascii.eqb c "t" || Ascii.eqb c "o" || Ascii.eqb c "w".

(** The characters of a compact move. *)
Definition uci_char (c : ascii) : bool :=
  is_file c || is_rank c || is_promotion c.

(** A character that is neither white space, nor part of a connector word,
    nor a character of a compact move, whatever its case: s, m, u and k are
    such letters. *)
Definition foreign (c : ascii) : bool :=
  let l := toLowerCaseChar c in
  negb (isWhiteSpace l) && negb (is_tow l) && negb (uci_char l).

(** *** Compact moves with fillers *)

Definition connectors : list jsstring := [str "to"; str "two"; str "too"].

(** What may stand between the characters of a compact move: white space
    and the connector words of [words]. *)
Inductive filler (words : list jsstring) : jsstring -> Prop :=
| filler_nil : filler words []
| filler_space c g :
    isWhiteSpace c = true -> filler words g -> filler words (c :: g)
| filler_word w g :
    In w words -> filler words g -> filler words (w ++ g).

(** [t] is [base] with fillers before, between and after its characters. *)
Inductive interspersed (words : list jsstring) : jsstring -> jsstring -> Prop :=
| inter_end g : filler words g -> interspersed words [] g
| inter_char g c base t :
    filler words g -> interspersed words base t ->
    interspersed words (c :: base) (g ++ c :: t).

(** *** Occurrences of a keyword *)

(** [x] is [kw] up to the case of its letters. *)
Definition eq_ci (x kw : jsstring) : Prop :=
  map canonicalize x = map canonicalize kw.

(** [kw] occurs somewhere in [s], in any case. *)
Definition occurs (kw s : jsstring) : Prop :=
  exists pre x post, s = pre ++ x ++ post /\ eq_ci x kw.

(** [k1], any white space, [k2] occurs somewhere in [s], in any case. *)
Definition occurs2 (k1 k2 s : jsstring) : Prop :=
  exists pre x sp y post,
    s = pre ++ x ++ sp ++ y ++ post
    /\ eq_ci x k1 /\ forallb isWhiteSpace sp = true /\ eq_ci y k2.

(** A character of a word, for the boundary [\b]: a letter, a digit or the
    underscore. *)
Definition is_word_char (c : ascii) : bool :=
  in_range "a" "z" c || in_range "A" "Z" c || is_digit c || Ascii.eqb c "_".

Fixpoint starts_with (kw s : jsstring) : bool :=
  match kw, s with
  | [], _ => true
  | k :: kw', c :: s' => Ascii.eqb k (toLowerCaseChar c) && starts_with kw' s'
  | _ :: _, [] => false
  end.

(** [kw] stands in [s] as a whole word: an occurrence, in any case, with no
    word character right before it or right after it.  [prev] is the
    character before [s], if any. *)
Fixpoint whole_word_from (prev : option ascii) (kw s : jsstring) : bool :=
  (match prev with Some c => negb (is_word_char c) | None => true end
   && starts_with kw s
   && match nth_error s (length kw) with
      | Some c => negb (is_word_char c)
      | None => true
      end)
  || match s with
     | [] => false
     | c :: s' => whole_word_from (Some c) kw s'
     end.

Definition whole_word (kw s : jsstring) : bool := whole_word_from None kw s.

(** *** Squares by cases *)

Definition files : list ascii :=
  ["a"; "b"; "c"; "d"; "e"; "f"; "g"; "h"]%char.

Definition ranks : list ascii :=
  ["1"; "2"; "3"; "4"; "5"; "6"; "7"; "8"]%char.

(** [P] holds for every two squares of the board. *)
Definition for_squares (P : ascii -> ascii -> ascii -> ascii -> bool) : bool :=
  forallb (fun f1 => forallb (fun r1 => forallb (fun f2 => forallb (fun r2 =>
    P f1 r1 f2 r2) ranks) files) ranks) files.

Definition command_eq_dec (a b : command) : {a = b} + {a <> b}.
Proof.
  decide equality; try apply (list_eq_dec ascii_dec).
  decide equality.
Defined.

Definition result_eq_dec (a b : option command) : {a = b} + {a <> b}.
Proof.
  decide equality. apply command_eq_dec.
Defined.

Definition result_eqb (a b : option command) : bool :=
  if result_eq_dec a b then true else false.

Definition is_none {A : Type} (o : option A) : bool :=
  match o with
  | None => true
  | Some _ => false
  end.

End Spec.
Export Spec.

(** ** The board

    [ChessBoard.tsx]: the squares of the board, their colours, the piece
    shown on a square and the selection of a move by two clicks.  The
    position is read from chess.js through [chess.get]; it is a parameter
    here. *)

Module Board.

(** Texts that leave U+0000..U+00FF are lists of UTF-16 code units. *)
Definition text16 := list N.

Definition units (s : jsstring) : text16 := map code s.

(** [String.prototype.toUpperCase] on a code unit below U+0100: a..z and
    U+00E0..U+00FE except U+00F7 move down by 32, U+00B5 becomes U+039C,
    U+00DF becomes SS and U+00FF becomes U+0178. *)
Definition toUpperCaseChar (c : ascii) : text16 :=
  let n := code c in
  if ((97 <=? n) && (n <=? 122)
      || (224 <=? n) && (n <=? 254) && negb (n =? 247))%N
  then [n - 32]%N
  else if (n =? 181)%N then [924]%N
  else if (n =? 223)%N then [83; 83]%N
  else if (n =? 255)%N then [376]%N
  else [n].

Definition toUpperCase (s : jsstring) : text16 := flat_map toUpperCaseChar s.

Definition text16_eqb (a b : text16) : bool :=
  if list_eq_dec N.eq_dec a b then true else false.

(** The text a template literal inserts for a natural number. *)
Definition number_text (n : N) : jsstring :=
  str (NilZero.string_of_uint (N.to_uint n)).

(** [a.join(" ")] *)
Fixpoint join (a : list jsstring) : jsstring :=
  match a with
  | [] => []
  | [x] => x
  | x :: a' => x ++ str " " ++ join a'
  end.

(** [a.indexOf(x)], counted from [i]; -1 when [x] is not found. *)
Fixpoint indexOf_from {A : Type} (eqb : A -> A -> bool) (i : Z) (a : list A)
    (x : A) : Z :=
  match a with
  | [] => (-1)%Z
  | y :: a' => if eqb y x then i else indexOf_from eqb (i + 1)%Z a' x
  end.

Definition indexOf {A : Type} (eqb : A -> A -> bool) (a : list A) (x : A) : Z :=
  indexOf_from eqb 0%Z a x.

Definition FILES : list jsstring :=
  [str "a"; str "b"; str "c"; str "d"; str "e"; str "f"; str "g"; str "h"].

Definition RANKS : list N := [8; 7; 6; 5; 4; 3; 2; 1]%N.

Record Square : Type := mkSquare {
  file : jsstring;
  rank : N;
  coord : jsstring
}.

(** The two loops that fill [squares]: ranks outside, files inside. *)
Definition squares : list Square :=
  flat_map
    (fun rank => map (fun file => mkSquare file rank (file ++ number_text rank))
                     FILES)
    RANKS.

(** [(FILES.indexOf(sq.file) + RANKS.indexOf(sq.rank)) % 2 === 1]; the
    remainder has the sign of the dividend. *)
Definition isDark (sq : Square) : bool :=
  (Z.rem (indexOf jsstring_eqb FILES (file sq) + indexOf N.eqb RANKS (rank sq)) 2
   =? 1)%Z.

(** *** Pieces *)

(** A piece of chess.js: its [color], "w" or "b", and its [type], one of
    "p", "n", "b", "r", "q" and "k". *)
Inductive Color : Type := WHITE | BLACK.

Inductive PieceSymbol : Type := PAWN | KNIGHT | BISHOP | ROOK | QUEEN | KING.

Definition color_text (c : Color) : jsstring :=
  match c with
  | WHITE => str "w"
  | BLACK => str "b"
  end.

Definition type_text (t : PieceSymbol) : jsstring :=
  match t with
  | PAWN => str "p" | KNIGHT => str "n" | BISHOP => str "b"
  | ROOK => str "r" | QUEEN => str "q" | KING => str "k"
  end.

Record Piece : Type := mkPiece { color : Color; type : PieceSymbol }.

(** The string with the code units [t], when they are below U+0100. *)
Definition latin1 (t : text16) : jsstring := map ascii_of_N t.

(** [piece.color === "w" ? piece.type.toUpperCase() : piece.type.toLowerCase()] *)
Definition symbol_of (piece : Piece) : jsstring :=
  if jsstring_eqb (color_text (color piece)) (str "w")
  then latin1 (toUpperCase (type_text (type piece)))
  else toLowerCase (type_text (type piece)).

(** The squares in the order of the loops of [pieceMap]: files outside,
    ranks inside. *)
Definition pieceMap_keys : list jsstring :=
  flat_map (fun file => map (fun rank => file ++ number_text rank) RANKS) FILES.

(** [map[sq] = ...]: the property set last is the one that is read. *)
Definition pieceMap_step (get : jsstring -> option Piece)
    (map : list (jsstring * jsstring)) (sq : jsstring)
  : list (jsstring * jsstring) :=
  match get sq with
  | Some piece => (sq, symbol_of piece) :: map
  | None => map
  end.

(** [get] is [chess.get] for the position [fen]. *)
Definition pieceMap (get : jsstring -> option Piece)
  : list (jsstring * jsstring) :=
  fold_left (pieceMap_step get) pieceMap_keys [].

(** The glyphs of [unicodeMap], as code units. *)
Definition unicodeMap (isWhite : bool) : list (jsstring * text16) :=
  [ (str "p", if isWhite then [9817] else [9823]);
    (str "r", if isWhite then [9814] else [9820]);
    (str "n", if isWhite then [9816] else [9822]);
    (str "b", if isWhite then [9815] else [9821]);
    (str "q", if isWhite then [9813] else [9819]);
    (str "k", if isWhite then [9812] else [9818]) ]%N.

(** What [unicodeMap[type]] gives: a glyph of the table, or what
    [Object.prototype] has under that name. *)
Inductive child : Type :=
| Glyph (g : text16)
| Other (v : Obj.jsval).

Definition unicodeMap_get (isWhite : bool) (type : jsstring) : child :=
  match Obj.assoc (unicodeMap isWhite) type with
  | Some g => Glyph g
  | None =>
      match Obj.assoc Obj.Object_prototype type with
      | Some v => Other v
      | None => Other Obj.VUndefined
      end
  end.

(** The [span] element that [renderPiece] returns. *)
Record span : Type := mkSpan { className : jsstring; children : child }.

Definition renderPiece (symbol : jsstring) : span :=
  let isWhite := text16_eqb (units symbol) (toUpperCase symbol) in
  let type := toLowerCase symbol in
  let classes :=
    join [str "piece";
          if isWhite then str "piece-white" else str "piece-black";
          str "piece-" ++ type] in
  mkSpan classes (unicodeMap_get isWhite type).

(** [piece && renderPiece(piece)] for [piece = pieceMap[sq.coord]]: nothing
    for [undefined] and for the empty string; a value that is not a string
    has no [toUpperCase] and the call throws. *)
Inductive content : Type :=
| Empty
| Shown (s : span)
| Throws.

Definition square_content (pieceMap : list (jsstring * jsstring))
    (sq : Square) : content :=
  match Obj.get pieceMap (coord sq) with
  | Obj.VUndefined => Empty
  | Obj.VString [] => Empty
  | Obj.VString symbol => Shown (renderPiece symbol)
  | _ => Throws
  end.

(** *** The selection *)

(** [handleSquareClick]: the next value of [selected] ([None] stands for
    [null]) and the calls of [onMove]. *)
Definition handleSquareClick (coord : jsstring) (selected : option jsstring)
  : option jsstring * list (jsstring * jsstring) :=
  match selected with
  | Some from =>
      if negb (truthy selected) then (Some coord, [])
      else if jsstring_eqb from coord then (None, [])
      else (None, [(from, coord)])
  | None => (Some coord, [])
  end.

(** The clicks are handled one at a time. *)
Fixpoint clicks (cs : list jsstring) (selected : option jsstring)
  : option jsstring * list (jsstring * jsstring) :=
  match cs with
  | [] => (selected, [])
  | c :: cs' =>
      let (s1, out1) := handleSquareClick c selected in
      let (s2, out2) := clicks cs' s1 in
      (s2, out1 ++ out2)
  end.

End Board.

(** ** The game

    [Game.tsx]: the state of the page and the handlers it gives to the
    board and to the voice controller.  The rules of chess are those of
    chess.js; the engine is a parameter. *)

Module Game.

(** What the page uses of a [Chess] object.  [Chess_move] is
    [move({ from, to, promotion: "q" })]: [None] when the engine refuses
    the move, by an exception or by a null result; the position is then
    unchanged.  [Chess_history] lists the [san] of the moves played. *)
Record Chess : Type := mkChess {
  position : Type;
  Chess_new : position;
  Chess_fen : position -> jsstring;
  Chess_history : position -> list jsstring;
  Chess_move : position -> jsstring -> jsstring -> option position;
  Chess_undo : position -> position
}.

Record MoveRecord : Type := mkMoveRecord {
  san : jsstring;
  moveNumber : nat
}.

(** [history.map((m, i) => ({ san: m.san, moveNumber: Math.floor(i / 2) + 1 }))],
    from the index [i] on. *)
Fixpoint format_from (i : nat) (history : list jsstring) : list MoveRecord :=
  match history with
  | [] => []
  | m :: history' => mkMoveRecord m (i / 2 + 1) :: format_from (S i) history'
  end.

Definition formatted (history : list jsstring) : list MoveRecord :=
  format_from 0 history.

Section Page.

Context {E : Chess}.

Record state : Type := mkState {
  gameRef : position E;          (* [gameRef.current] *)
  fen : jsstring;
  moves : list MoveRecord
}.

Definition initial : state := mkState (Chess_new E) (Chess_fen E (Chess_new E)) [].

Definition safeUpdateGame (st : state) : state :=
  mkState (gameRef st) (Chess_fen E (gameRef st))
          (formatted (Chess_history E (gameRef st))).

Definition setGame (g : position E) (st : state) : state :=
  mkState g (fen st) (moves st).

(** The handler given to the board: a refused move is dropped. *)
Definition handleSquareClick (from to : jsstring) (st : state) : state :=
  match Chess_move E (gameRef st) from to with
  | Some g => safeUpdateGame (setGame g st)
  | None => st
  end.

(** The handler given to the voice controller: a refused move throws. *)
Definition handleVoiceMove (from to : jsstring) (st : state)
  : state * outcome :=
  match Chess_move E (gameRef st) from to with
  | Some g => (safeUpdateGame (setGame g st), returns)
  | None => (st, throws)
  end.

(** The page and the state that the voice controller shares with it: the
    voice status and the last command. *)
Definition page : Type := state * Controller.state.

Definition handleNewGame (pg : page) : page :=
  (safeUpdateGame (setGame (Chess_new E) (fst pg)),
   setLastCommand [] (snd pg)).

Definition handleUndo (st : state) : state :=
  safeUpdateGame (setGame (Chess_undo E (gameRef st)) st).

(** The callback that an effect of the controller stands for. *)
Definition callback (e : effect) (pg : page) : page :=
  match e with
  | OnMove from to => (fst (handleVoiceMove from to (fst pg)), snd pg)
  | OnNewGame => handleNewGame pg
  | OnUndo => (handleUndo (fst pg), snd pg)
  | _ => pg
  end.

(** The outcome of the callback that [onresult] calls for [transcript]. *)
Definition called (transcript : jsstring) (st : state) : outcome :=
  match parseVoiceCommand transcript with
  | Some (Move from to) => snd (handleVoiceMove from to st)
  | _ => returns
  end.

(** [recognition.onresult] on the page: the handler of the controller with
    the callbacks of the page. *)
Definition onresult (transcript : jsstring) (pg : page) : page * list effect :=
  let (c, out) :=
    Controller.onresult transcript (called transcript (fst pg)) (snd pg) in
  (fold_left (fun pg' e => callback e pg') out (fst pg, c), out).

End Page.

Arguments state E : clear implicits.
Arguments page E : clear implicits.

(** *** The list of moves *)

Record row : Type := mkRow {
  number : nat;                 (* [moves[i].moveNumber] *)
  white : jsstring;             (* [moves[i]?.san || ""] *)
  black : jsstring              (* [moves[i + 1]?.san || ""] *)
}.

(** [x?.san || ""] *)
Definition san_or_empty (x : option MoveRecord) : jsstring :=
  match x with
  | Some m => san m
  | None => []
  end.

(** The loop [for (let i = 0; i < moves.length; i += 2)], on the moves from
    [i] on. *)
Fixpoint rows (moves : list MoveRecord) : list row :=
  match moves with
  | [] => []
  | m :: rest =>
      match rest with
      | [] => [mkRow (moveNumber m) (san_or_empty (Some m)) (san_or_empty None)]
      | m' :: rest' =>
          mkRow (moveNumber m) (san_or_empty (Some m)) (san_or_empty (Some m'))
          :: rows rest'
      end
  end.

(** *** An engine to try the statements on

    It accepts every move between two different squares and records it. *)
Definition recorder : Chess :=
  mkChess (list jsstring) [] (fun g => concat g) (fun g => g)
    (fun g from to =>
       if jsstring_eqb from to then None else Some (g ++ [from ++ to]))
    (fun g => removelast g).

End Game.

(** ** Vocabulary for the session *)

Module Session.

Definition is_start (e : effect) : bool :=
  match e with
  | RecognitionStart => true
  | _ => false
  end.

Definition is_end (e : event) : bool :=
  match e with
  | OnEnd => true
  | _ => false
  end.

Definition is_toggle (e : event) : bool :=
  match e with
  | Toggle | ToggleStartThrows => true
  | _ => false
  end.

End Session.
Export Session.

(** ** Vocabulary for the board *)

Module Chessmen.

Import Board.

(** The chess symbols of Unicode: U+2654 is the white king; queen, rook,
    bishop, knight and pawn follow, and the black pieces come after the
    white ones in the same order. *)
Definition glyph (piece : Piece) : N :=
  (9812
   + match color piece with WHITE => 0 | BLACK => 6 end
   + match type piece with
     | KING => 0 | QUEEN => 1 | ROOK => 2
     | BISHOP => 3 | KNIGHT => 4 | PAWN => 5
     end)%N.

Definition colour_name (c : Color) : jsstring :=
  match c with
  | WHITE => str "white"
  | BLACK => str "black"
  end.

(** The number of a file: 1 for a, 8 for h. *)
Definition file_number (file : jsstring) : N :=
  match file with
  | [c] => code c - 96
  | _ => 0
  end.

Fixpoint distinct (l : list jsstring) : bool :=
  match l with
  | [] => true
  | x :: l' => negb (existsb (jsstring_eqb x) l') && distinct l'
  end.

(** The clicks that select the moves [ms], one move after the other. *)
Definition clicks_of (ms : list (jsstring * jsstring)) : list jsstring :=
  flat_map (fun m => [fst m; snd m]) ms.

End Chessmen.

(** ** Vocabulary for the game *)

Module Shown.

Import Game.

(** The page shows the position and the moves of its engine. *)
Definition shows_engine {E : Chess} (st : state E) : Prop :=
  fen st = Chess_fen E (gameRef st)
  /\ moves st = formatted (Chess_history E (gameRef st)).

End Shown.

(** * Facts about the patterns and the parser *)

(** ** The matcher and the texts of a pattern *)

Section General.

Context {A : Type}.
Implicit Types k : @cont A.

(** A star succeeds wherever its continuation does. *)
Lemma star_match_weaken ci cl b s op c k :
  k b s op c <> None -> star_match ci cl b s op c k <> None.
Proof.
  intros H. destruct s as [|a s]; cbn; [exact H|].
  destruct (class_match ci cl a); [|exact H].
  destruct (star_match ci cl false s (consume a op) c k); [discriminate | exact H].
Qed.

Lemma lit_match_complete ci l x : 
  Forall2 (fun p c => char_match ci p c = true) l x ->
  forall rest b op c k,
  (forall b' op', k b' rest op' c <> None) ->
  lit_match ci l b (x ++ rest) op c k <> None.
Proof.
  induction 1 as [|p a l x Hpa _ IH]; intros rest b op c k Hk; cbn.
  - apply Hk.
  - rewrite Hpa. apply IH, Hk.
Qed.

Lemma pushed_nil (op : list jsstring) : map (app (rev [])) op = op.
Proof. cbn. rewrite map_id. reflexivity. Qed.

Lemma pushed_cons d x (op : list jsstring) :
  map (app (rev x)) (consume d op) = map (app (rev (d :: x))) op.
Proof.
  unfold consume. rewrite map_map. apply map_ext. intros g. cbn.
  rewrite <- app_assoc. reflexivity.
Qed.

Lemma pushed_app x1 x2 (op : list jsstring) :
  map (app (rev x2)) (map (app (rev x1)) op) = map (app (rev (x1 ++ x2))) op.
Proof.
  rewrite map_map. apply map_ext. intros g. rewrite rev_app_distr, app_assoc.
  reflexivity.
Qed.

(** A literal that matches has read a text equal to it, character by
    character, and has handed the rest to its continuation. *)
Lemma lit_match_sound ci l : forall b s op c k a,
  lit_match ci l b s op c k = Some a ->
  exists x rest b', s = x ++ rest
    /\ Forall2 (fun p c => char_match ci p c = true) l x
    /\ k b' rest (map (app (rev x)) op) c = Some a.
Proof.
  induction l as [|p l IH]; intros b s op c k a H; cbn in H.
  - exists [], s, b. rewrite pushed_nil. auto.
  - destruct s as [|d s]; [discriminate|].
    destruct (char_match ci p d) eqn:E; [|discriminate].
    apply IH in H. destruct H as (x & rest & b' & -> & F & H).
    rewrite pushed_cons in H.
    exists (d :: x), rest, b'. repeat split; auto.
Qed.

Lemma star_match_sound ci cl : forall s b op c k a,
  star_match ci cl b s op c k = Some a ->
  exists x rest b', s = x ++ rest
    /\ forallb (class_match ci cl) x = true
    /\ k b' rest (map (app (rev x)) op) c = Some a.
Proof.
  induction s as [|d s IH]; intros b op c k a H; cbn in H.
  - exists [], [], b. rewrite pushed_nil. auto.
  - destruct (class_match ci cl d) eqn:E.
    + destruct (star_match ci cl false s (consume d op) c k) eqn:E2.
      * inversion H; subst. apply IH in E2.
        destruct E2 as (x & rest & b' & -> & F & E2).
        rewrite pushed_cons in E2.
        exists (d :: x), rest, b'. cbn [forallb]. rewrite E, F. auto.
      * exists [], (d :: s), b. rewrite pushed_nil. auto.
    + exists [], (d :: s), b. rewrite pushed_nil. auto.
Qed.

Lemma star_match_complete ci cl x : 
  forallb (class_match ci cl) x = true ->
  forall rest b op c k,
  (forall b' op', k b' rest op' c <> None) ->
  star_match ci cl b (x ++ rest) op c k <> None.
Proof.
  induction x as [|d x IH]; intros F rest b op c k Hk.
  - apply star_match_weaken, Hk.
  - cbn in F. apply andb_true_iff in F. destruct F as [E F].
    cbn. rewrite E.
    specialize (IH F rest false (consume d op) c k Hk).
    destruct (star_match ci cl false (x ++ rest) (consume d op) c k);
      [discriminate | contradiction].
Qed.

(** Soundness of the matcher: a match of a pattern without anchors has
    read a text of the pattern; the open groups have read it too. *)
Lemma rmatch_sound ci r : anchor_free r = true ->
  forall b s op c k a,
  rmatch ci r b s op c k = Some a ->
  exists x rest b' c', s = x ++ rest /\ lang ci r x
    /\ k b' rest (map (app (rev x)) op) c' = Some a.
Proof.
  induction r as [l|cl|cl|cl|r IH|r1 IH1 r2 IH2|r1 IH1 r2 IH2|n r IH| |];
    intros AF b s op c k a H; cbn in *; try discriminate.
  - apply lit_match_sound in H. destruct H as (x & rest & b' & ? & ? & ?).
    exists x, rest, b', c. auto.
  - destruct s as [|d s]; [discriminate|].
    destruct (class_match ci cl d) eqn:E; [|discriminate].
    rewrite <- (pushed_nil (consume d op)), pushed_cons in H.
    exists [d], s, false, c. repeat split; eauto.
  - apply star_match_sound in H. destruct H as (x & rest & b' & ? & ? & ?).
    exists x, rest, b', c. auto.
  - destruct s as [|d s]; [discriminate|].
    destruct (class_match ci cl d) eqn:E; [|discriminate].
    apply star_match_sound in H. destruct H as (x & rest & b' & -> & ? & H).
    rewrite pushed_cons in H.
    exists (d :: x), rest, b', c. cbn [forallb]. rewrite E. repeat split; auto.
    discriminate.
  - destruct (rmatch ci r b s op c k) eqn:E.
    + inversion H; subst. apply IH in E; auto.
      destruct E as (x & rest & b' & c' & ? & ? & ?).
      exists x, rest, b', c'. auto.
    + exists [], s, b, c. rewrite pushed_nil. auto.
  - apply andb_true_iff in AF. destruct AF as [AF1 AF2].
    apply IH1 in H; auto. destruct H as (x1 & rest1 & b1 & c1 & -> & L1 & H).
    apply IH2 in H; auto. destruct H as (x2 & rest & b2 & c2 & -> & L2 & H).
    rewrite pushed_app in H.
    exists (x1 ++ x2), rest, b2, c2. rewrite app_assoc. repeat split; eauto.
  - apply andb_true_iff in AF. destruct AF as [AF1 AF2].
    destruct (rmatch ci r1 b s op c k) eqn:E.
    + inversion H; subst. apply IH1 in E; auto.
      destruct E as (x & rest & b' & c' & ? & ? & ?).
      exists x, rest, b', c'. auto.
    + apply IH2 in H; auto.
      destruct H as (x & rest & b' & c' & ? & ? & ?).
      exists x, rest, b', c'. auto.
  - apply IH in H; auto.
    destruct H as (x & rest & b' & c' & ? & ? & H).
    cbn in H. eexists x, rest, b', _. eauto.
Qed.

(** Completeness: in front of a text of the pattern, the matcher succeeds
    when its continuation succeeds on what follows the text. *)
Lemma rmatch_complete ci r : forall x, lang ci r x ->
  forall rest b op c k,
  (forall b' op' c', k b' rest op' c' <> None) ->
  rmatch ci r b (x ++ rest) op c k <> None.
Proof.
  induction r as [l|cl|cl|cl|r IH|r1 IH1 r2 IH2|r1 IH1 r2 IH2|n r IH| |];
    intros x L rest b op c k Hk; cbn in *; try contradiction.
  - apply lit_match_complete; auto.
  - destruct L as (d & -> & E). cbn. rewrite E. apply Hk.
  - apply star_match_complete; auto.
  - destruct L as [NE F]. destruct x as [|d x]; [contradiction|].
    cbn in F. apply andb_true_iff in F. destruct F as [E F].
    cbn. rewrite E. apply star_match_complete; auto.
  - destruct (rmatch ci r b (x ++ rest) op c k) eqn:E; [discriminate|].
    destruct L as [-> | L]; [apply Hk|].
    exfalso. revert E. apply IH; auto.
  - destruct L as (x1 & x2 & -> & L1 & L2). rewrite <- app_assoc.
    apply IH1; [exact L1|]. intros b' op' c'. apply IH2; auto.
  - destruct (rmatch ci r1 b (x ++ rest) op c k) eqn:E; [discriminate|].
    destruct L as [L | L]; [|apply IH2; auto].
    exfalso. revert E. apply IH1; auto.
  - apply IH; auto.
Qed.

End General.

(** The matched text is at the front of the input and is a text of the
    pattern. *)
Lemma match_at_sound ci r b s m : anchor_free r = true ->
  match_at ci r b s = Some m ->
  exists rest, s = matched m ++ rest /\ lang ci r (matched m).
Proof.
  intros AF H. unfold match_at in H. apply rmatch_sound in H; auto.
  destruct H as (x & rest & b' & c' & -> & L & H). cbn in H.
  rewrite app_nil_r, rev_involutive in H. inversion H; subst. cbn. eauto.
Qed.

Lemma match_at_complete ci r b x rest :
  lang ci r x -> match_at ci r b (x ++ rest) <> None.
Proof.
  intros L. unfold match_at. apply rmatch_complete; auto. discriminate.
Qed.

Lemma search_found ci r : anchor_free r = true -> forall s b,
  search ci r b s <> None ->
  exists pre x post, s = pre ++ x ++ post /\ lang ci r x.
Proof.
  intros AF. induction s as [|d s IH]; intros b H; cbn in H.
  - destruct (match_at ci r b []) eqn:E; [|contradiction].
    apply match_at_sound in E; auto. destruct E as (rest & E & L).
    exists [], (matched m), rest. auto.
  - destruct (match_at ci r b (d :: s)) eqn:E.
    + apply match_at_sound in E; auto. destruct E as (rest & E & L).
      exists [], (matched m), rest. auto.
    + apply IH in H. destruct H as (pre & x & post & -> & L).
      exists (d :: pre), x, post. auto.
Qed.

Lemma search_finds ci r pre x post : lang ci r x ->
  forall b, search ci r b (pre ++ x ++ post) <> None.
Proof.
  intros L. induction pre as [|d pre IH]; intros b.
  - cbn [app]. pose proof (match_at_complete ci r b x post L) as H.
    destruct (x ++ post); cbn; destruct (match_at ci r b _); congruence.
  - cbn. destruct (match_at ci r b _); [discriminate | apply IH].
Qed.

(** [test] holds exactly when a text of the pattern occurs in the input. *)
Lemma test_spec ci r s : anchor_free r = true ->
  test ci r s = true <->
  exists pre x post, s = pre ++ x ++ post /\ lang ci r x.
Proof.
  intros AF. unfold test, exec. split.
  - intros H. apply (search_found ci r AF s true).
    destruct (search ci r true s); [discriminate | discriminate].
  - intros (pre & x & post & -> & L).
    pose proof (search_finds ci r pre x post L true).
    destruct (search ci r true _); congruence.
Qed.

(** ** Replacement *)

(** A replacement by the empty string only removes characters. *)
Lemma replace_go_forallb ci r (Q : ascii -> bool) : forall s skip b,
  forallb Q s = true -> forallb Q (replace_go ci r skip b s) = true.
Proof.
  induction s as [|d s IH]; intros skip b H; cbn; [reflexivity|].
  cbn in H. apply andb_true_iff in H. destruct H as [Hd Hs].
  destruct skip; [|apply IH; exact Hs].
  destruct (match_at ci r b (d :: s)) as [m|].
  - destruct (length (matched m)); [cbn; rewrite Hd|]; apply IH; exact Hs.
  - cbn. rewrite Hd. apply IH; exact Hs.
Qed.

(** A character that no match can contain is never removed. *)
Lemma replace_go_keeps ci r (P : ascii -> bool) d :
  anchor_free r = true ->
  (forall x, lang ci r x -> forallb P x = true) ->
  P d = false ->
  forall s skip b,
  forallb P (firstn skip s) = true ->
  In d s -> In d (replace_go ci r skip b s).
Proof.
  intros AF HP Hd. induction s as [|a s IH]; intros skip b F I; [contradiction|].
  cbn. destruct skip as [|n].
  - destruct (match_at ci r b (a :: s)) as [m|] eqn:E.
    + apply match_at_sound in E; auto. destruct E as (rest & E & L).
      apply HP in L. destruct (matched m) as [|a' x]; cbn.
      * destruct I as [-> | I]; [left; reflexivity | right].
        apply IH; auto.
      * cbn in E. inversion E; subst a' s. cbn in L.
        apply andb_true_iff in L. destruct L as [La Lx].
        destruct I as [-> | I]; [congruence|].
        apply IH; auto. rewrite firstn_app, Nat.sub_diag, firstn_all.
        cbn. rewrite app_nil_r. exact Lx.
    + destruct I as [-> | I]; [left; reflexivity | right].
      apply IH; auto.
  - cbn in F. apply andb_true_iff in F. destruct F as [Fa F].
    destruct I as [-> | I]; [congruence|]. apply IH; auto.
Qed.

Lemma remove_all_keeps ci r (P : ascii -> bool) d s :
  anchor_free r = true ->
  (forall x, lang ci r x -> forallb P x = true) ->
  P d = false -> In d s -> In d (remove_all ci r s).
Proof.
  intros. unfold remove_all. eapply replace_go_keeps; eauto.
Qed.

(** ** Characters *)

Local Open Scope char_scope.

Ltac ascii_cases c := destruct c as [[|] [|] [|] [|] [|] [|] [|] [|]].

(** The [i] flag does not change the class of white space. *)
Lemma ws_class_ci c : class_match true ws c = isWhiteSpace c.
Proof. ascii_cases c; reflexivity. Qed.

Lemma ws_class_cs c : class_match false ws c = isWhiteSpace c.
Proof. unfold class_match, class_has, ws. cbn. apply orb_false_r. Qed.

(** With the [i] flag a literal matches the texts that are equal to it up
    to case; without the flag, the literal alone. *)
Lemma lit_lang_ci l x :
  Forall2 (fun p c => char_match true p c = true) l x <-> eq_ci x l.
Proof.
  unfold eq_ci. split.
  - induction 1 as [|p c l x E _ IH]; cbn; [reflexivity|].
    apply Ascii.eqb_eq in E. cbn in E. congruence.
  - revert x. induction l as [|p l IH]; intros [|c x] H; cbn in H;
      try discriminate; constructor.
    + cbn. apply Ascii.eqb_eq. congruence.
    + apply IH. congruence.
Qed.

Lemma lit_lang_cs l x :
  Forall2 (fun p c => char_match false p c = true) l x -> x = l.
Proof.
  induction 1 as [|p c l x E _ IH]; [reflexivity|].
  apply Ascii.eqb_eq in E. cbn in E. congruence.
Qed.

Lemma forallb_same {T} (f g : T -> bool) x :
  (forall c, f c = g c) -> forallb f x = forallb g x.
Proof.
  intros E. induction x as [|c x IH]; cbn; [reflexivity|]. rewrite E, IH.
  reflexivity.
Qed.

Lemma connector_lang x : lang false re_connector x -> forallb is_tow x = true.
Proof.
  cbn. intros [[H | H] | H]; apply lit_lang_cs in H; subst x; reflexivity.
Qed.

Lemma spaces_lang x : lang false re_spaces x -> forallb isWhiteSpace x = true.
Proof.
  cbn. intros [_ H]. rewrite <- H. apply forallb_same.
  intros c. symmetry. apply ws_class_cs.
Qed.

Lemma foreign_letter c k :
  canonicalize c = k -> In k ["S"; "M"; "U"; "K"] -> foreign c = true.
Proof.
  intros <- H. ascii_cases c; cbn in H;
    repeat (destruct H as [H | H]; [try discriminate H; reflexivity |]);
    contradiction.
Qed.

Lemma letter_not_space c k :
  canonicalize c = k -> in_range "A" "Z" k = true -> isWhiteSpace c = false.
Proof.
  intros <-. ascii_cases c; cbn; intros H; (reflexivity || discriminate H).
Qed.

(** ** The compact pattern *)

(** The compact pattern is anchored: it matches at the beginning of the
    input or not at all. *)
Lemma uci_later s : search false re_uci false s = None.
Proof. induction s as [|d s IH]; cbn; [reflexivity | exact IH]. Qed.

Lemma uci_first s : exec false re_uci s = match_at false re_uci true s.
Proof.
  unfold exec. destruct s as [|d s]; cbn [search].
  - destruct (match_at false re_uci true []); reflexivity.
  - rewrite uci_later. destruct (match_at false re_uci true (d :: s)); reflexivity.
Qed.

Lemma file_lc_class c : class_match false file_lc c = is_file c.
Proof. unfold class_match, class_has, file_lc. cbn. apply orb_false_r. Qed.

Lemma rank_class c : class_match false rank c = is_rank c.
Proof. unfold class_match, class_has, rank. cbn. apply orb_false_r. Qed.

Lemma promo_class c : class_match false promo c = is_promotion c.
Proof.
  unfold class_match, class_has, promo, is_promotion. cbn.
  rewrite orb_false_r, !orb_assoc, !(Ascii.eqb_sym c). reflexivity.
Qed.

(** What the compact pattern matches: two squares and at most one
    promotion letter, and nothing else. *)
Lemma uci_shape s m :
  exec false re_uci s = Some m ->
  exists f1 r1 f2 r2 p,
    s = [f1; r1; f2; r2] ++ p
    /\ is_file f1 = true /\ is_rank r1 = true
    /\ is_file f2 = true /\ is_rank r2 = true
    /\ (p = [] \/ exists c, p = [c] /\ is_promotion c = true)
    /\ group_text 1 m = [f1; r1] /\ group_text 2 m = [f2; r2].
Proof.
  rewrite uci_first. unfold match_at.
  destruct s as [|f1 [|r1 [|f2 [|r2 p]]]]; cbn -[class_match];
    rewrite ?file_lc_class, ?rank_class, ?promo_class.
  1: discriminate.
  1: destruct (is_file f1); discriminate.
  1: destruct (is_file f1), (is_rank r1); discriminate.
  1: destruct (is_file f1), (is_rank r1), (is_file f2); discriminate.
  destruct (is_file f1) eqn:F1; [|discriminate].
  destruct (is_rank r1) eqn:R1; [|discriminate].
  destruct (is_file f2) eqn:F2; [|discriminate].
  destruct (is_rank r2) eqn:R2; [|discriminate].
  destruct p as [|c [|c' p]]; cbn -[class_match]; rewrite ?promo_class.
  - intros H. inversion H; subst. exists f1, r1, f2, r2, []. cbn. auto 10.
  - destruct (is_promotion c) eqn:P; cbn; [|discriminate].
    intros H. inversion H; subst. exists f1, r1, f2, r2, [c]. cbn.
    repeat split; eauto.
  - destruct (is_promotion c); cbn; discriminate.
Qed.

Lemma uci_chars s m :
  exec false re_uci s = Some m -> forallb uci_char s = true.
Proof.
  intros H. apply uci_shape in H.
  destruct H as (f1 & r1 & f2 & r2 & p & -> & F1 & R1 & F2 & R2 & P & _).
  unfold uci_char. cbn. rewrite F1, R1, F2, R2. cbn. rewrite !orb_true_r. cbn.
  destruct P as [-> | (c & -> & P)]; cbn; [reflexivity|].
  rewrite P, !orb_true_r. reflexivity.
Qed.

(** A transcript with a foreign letter is not a compact move. *)
Lemma foreign_not_uci c t :
  In c t -> foreign c = true -> exec false re_uci (clean_of t) = None.
Proof.
  intros I F. destruct (exec false re_uci (clean_of t)) as [m|] eqn:E;
    [exfalso | reflexivity].
  apply uci_chars in E. rewrite forallb_forall in E.
  unfold foreign in F. cbn zeta in F.
  apply andb_true_iff in F. destruct F as [F F3].
  apply andb_true_iff in F. destruct F as [F1 F2].
  apply negb_true_iff in F1, F2, F3.
  specialize (E (toLowerCaseChar c)). rewrite F3 in E.
  assert (true = false); [|discriminate]. symmetry. apply E. unfold clean_of.
  apply (remove_all_keeps false re_spaces isWhiteSpace); auto using spaces_lang.
  apply (remove_all_keeps false re_connector is_tow); auto using connector_lang.
  unfold toLowerCase. apply in_map. exact I.
Qed.

(** ** Trimming *)

(** What [trim] returns is a part of its argument, and [trim] keeps every
    part that starts and ends with a character other than white space. *)
Lemma trimStart_suffix s : exists lead, s = lead ++ trimStart s.
Proof.
  induction s as [|c s [lead IH]]; cbn.
  - exists []. reflexivity.
  - destruct (isWhiteSpace c).
    + exists (c :: lead). cbn. congruence.
    + exists []. reflexivity.
Qed.

Lemma trim_inside s : exists lead trail, s = lead ++ trim s ++ trail.
Proof.
  destruct (trimStart_suffix s) as [lead E].
  destruct (trimStart_suffix (rev (trimStart s))) as [trail E2].
  exists lead, (rev trail). unfold trim, trimEnd.
  rewrite <- rev_app_distr, <- E2, rev_involutive. exact E.
Qed.

Lemma trimStart_keeps pre a s :
  isWhiteSpace a = false -> exists pre', trimStart (pre ++ a :: s) = pre' ++ a :: s.
Proof.
  intros H. induction pre as [|c pre [pre' IH]]; cbn.
  - rewrite H. exists []. reflexivity.
  - destruct (isWhiteSpace c).
    + exists pre'. exact IH.
    + exists (c :: pre). reflexivity.
Qed.

Lemma trimEnd_keeps s z post :
  isWhiteSpace z = false -> exists post', trimEnd (s ++ z :: post) = s ++ z :: post'.
Proof.
  intros H. unfold trimEnd. rewrite rev_app_distr. cbn. rewrite <- app_assoc. cbn.
  destruct (trimStart_keeps (rev post) z (rev s) H) as [pre' E].
  rewrite E. exists (rev pre'). rewrite rev_app_distr. cbn.
  rewrite rev_involutive, <- app_assoc. reflexivity.
Qed.

(** Cutting the white space off both ends of a text neither adds nor
    removes an occurrence of a text that starts and ends with other
    characters. *)
Lemma occurs_trim (K : jsstring -> Prop) s :
  (forall x, K x -> exists a x', x = a :: x' /\ isWhiteSpace a = false) ->
  (forall x, K x -> exists y z, x = y ++ [z] /\ isWhiteSpace z = false) ->
  (exists pre x post, trim s = pre ++ x ++ post /\ K x)
  <-> (exists pre x post, s = pre ++ x ++ post /\ K x).
Proof.
  intros Hhd Hlast. split.
  - intros (pre & x & post & E & Kx).
    destruct (trim_inside s) as (lead & trail & Es).
    exists (lead ++ pre), x, (post ++ trail). split; [|exact Kx].
    rewrite Es, E, <- !app_assoc. reflexivity.
  - intros (pre & x & post & -> & Kx).
    destruct (Hhd x Kx) as (a & x' & Ex & Ha).
    destruct (Hlast x Kx) as (y & z & Ey & Hz).
    unfold trim.
    destruct (trimStart_keeps pre a (x' ++ post) Ha) as [pre' E1].
    assert (E1' : trimStart (pre ++ x ++ post) = pre' ++ x ++ post).
    { rewrite Ex. exact E1. }
    rewrite E1'.
    destruct (trimEnd_keeps (pre' ++ y) z post Hz) as [post' E2].
    exists pre', x, post'. split; [|exact Kx].
    rewrite Ey, <- !app_assoc. rewrite <- !app_assoc in E2. cbn. exact E2.
Qed.

(** ** The life-cycle keywords *)

(** The texts of the two life-cycle patterns. *)
Lemma eq_ci_cons x k kw :
  eq_ci x (k :: kw) ->
  exists c x', x = c :: x' /\ canonicalize c = canonicalize k /\ eq_ci x' kw.
Proof.
  unfold eq_ci. destruct x as [|c x']; cbn; intros H; [discriminate|].
  inversion H. eauto.
Qed.

Lemma eq_ci_nil x : eq_ci x [] -> x = [].
Proof. unfold eq_ci. destruct x; cbn; [reflexivity | discriminate]. Qed.

Ltac split_ci H :=
  repeat (let c := fresh "c" in let x := fresh "x" in let E := fresh "E" in
          apply eq_ci_cons in H; destruct H as (c & x & -> & E & H);
          cbn in E);
  apply eq_ci_nil in H; subst.

Lemma lit_star_lit_lang k1 k2 x :
  lang true (RLit k1 @@ RStar ws @@ RLit k2) x <->
  exists a sp b, x = a ++ sp ++ b /\ eq_ci a k1
     /\ forallb isWhiteSpace sp = true /\ eq_ci b k2.
Proof.
  cbn -[char_match class_match]. split.
  - intros (x1 & b & -> & (a & sp & -> & Ha & Hsp) & Hb).
    apply lit_lang_ci in Ha, Hb. exists a, sp, b. rewrite <- app_assoc.
    rewrite (forallb_same _ isWhiteSpace) in Hsp by apply ws_class_ci.
    repeat split; auto.
  - intros (a & sp & b & -> & Ha & Hsp & Hb). apply lit_lang_ci in Ha, Hb.
    exists (a ++ sp), b. rewrite <- app_assoc. repeat split; auto.
    exists a, sp. repeat split; auto.
    rewrite (forallb_same _ isWhiteSpace) by apply ws_class_ci. exact Hsp.
Qed.

Lemma newgame_lang x :
  lang true re_newgame x <->
  (exists a sp b, x = a ++ sp ++ b /\ eq_ci a (str "new")
     /\ forallb isWhiteSpace sp = true /\ eq_ci b (str "game"))
  \/ eq_ci x (str "reset").
Proof.
  unfold re_newgame. cbn [lang].
  fold (lang true (RLit (str "new") @@ RStar ws @@ RLit (str "game")) x).
  rewrite lit_star_lit_lang, lit_lang_ci. reflexivity.
Qed.

Lemma undo_lang x :
  lang true re_undo x <->
  eq_ci x (str "undo")
  \/ (exists a sp b, x = a ++ sp ++ b /\ eq_ci a (str "take")
        /\ forallb isWhiteSpace sp = true /\ eq_ci b (str "back")).
Proof.
  unfold re_undo. cbn [lang].
  fold (lang true (RLit (str "take") @@ RStar ws @@ RLit (str "back")) x).
  rewrite lit_star_lit_lang, lit_lang_ci. reflexivity.
Qed.

(** A text of a life-cycle keyword starts and ends with a letter and holds
    a foreign letter. *)
Lemma keyword_text x :
  lang true re_newgame x \/ lang true re_undo x ->
  (exists a x', x = a :: x' /\ isWhiteSpace a = false)
  /\ (exists y z, x = y ++ [z] /\ isWhiteSpace z = false)
  /\ (exists c, In c x /\ foreign c = true).
Proof.
  rewrite newgame_lang, undo_lang.
  intros [[(a & sp & b & -> & Ha & _ & Hb) | H] | [H | (a & sp & b & -> & Ha & _ & Hb)]].
  - split_ci Ha. split_ci Hb. repeat split.
    + eexists _, _. split; [reflexivity|]. eapply letter_not_space; eauto.
    + exists ([c; c0; c1] ++ sp ++ [c2; c3; c4]), c5. split.
      * rewrite <- !app_assoc. reflexivity.
      * eapply letter_not_space; eauto.
    + exists c4. split.
      * apply in_or_app. right. apply in_or_app. right. cbn. auto.
      * eapply foreign_letter; eauto. cbn. auto.
  - split_ci H. repeat split.
    + eexists _, _. split; [reflexivity|]. eapply letter_not_space; eauto.
    + exists [c; c0; c1; c2], c3. split; [reflexivity|].
      eapply letter_not_space; eauto.
    + exists c1. split; [cbn; auto|]. eapply foreign_letter; eauto. cbn. auto.
  - split_ci H. repeat split.
    + eexists _, _. split; [reflexivity|]. eapply letter_not_space; eauto.
    + exists [c; c0; c1], c2. split; [reflexivity|].
      eapply letter_not_space; eauto.
    + exists c. split; [cbn; auto|]. eapply foreign_letter; eauto. cbn. auto.
  - split_ci Ha. split_ci Hb. repeat split.
    + eexists _, _. split; [reflexivity|]. eapply letter_not_space; eauto.
    + exists ([c; c0; c1; c2] ++ sp ++ [c3; c4; c5]), c6. split.
      * rewrite <- !app_assoc. reflexivity.
      * eapply letter_not_space; eauto.
    + exists c1. split; [cbn; auto|]. eapply foreign_letter; eauto. cbn. auto.
Qed.

Lemma newgame_occurs s :
  (exists pre x post, s = pre ++ x ++ post /\ lang true re_newgame x)
  <-> occurs2 (str "new") (str "game") s \/ occurs (str "reset") s.
Proof.
  unfold occurs2, occurs. split.
  - intros (pre & x & post & -> & L). apply newgame_lang in L.
    destruct L as [(a & sp & b & -> & Ha & Hsp & Hb) | H].
    + left. exists pre, a, sp, b, post. rewrite <- !app_assoc. auto.
    + right. exists pre, x, post. auto.
  - intros [(pre & a & sp & b & post & -> & Ha & Hsp & Hb) | (pre & x & post & -> & H)].
    + exists pre, (a ++ sp ++ b), post. rewrite <- !app_assoc. split; [reflexivity|].
      apply newgame_lang. left. exists a, sp, b. auto.
    + exists pre, x, post. split; [reflexivity|]. apply newgame_lang. auto.
Qed.

Lemma undo_occurs s :
  (exists pre x post, s = pre ++ x ++ post /\ lang true re_undo x)
  <-> occurs (str "undo") s \/ occurs2 (str "take") (str "back") s.
Proof.
  unfold occurs2, occurs. split.
  - intros (pre & x & post & -> & L). apply undo_lang in L.
    destruct L as [H | (a & sp & b & -> & Ha & Hsp & Hb)].
    + left. exists pre, x, post. auto.
    + right. exists pre, a, sp, b, post. rewrite <- !app_assoc. auto.
  - intros [(pre & x & post & -> & H) | (pre & a & sp & b & post & -> & Ha & Hsp & Hb)].
    + exists pre, x, post. split; [reflexivity|]. apply undo_lang. auto.
    + exists pre, (a ++ sp ++ b), post. rewrite <- !app_assoc. split; [reflexivity|].
      apply undo_lang. right. exists a, sp, b. auto.
Qed.

(** The test of a life-cycle pattern on the trimmed transcript, in terms
    of the transcript. *)
Lemma newgame_test text :
  test true re_newgame (trim text) = true
  <-> occurs2 (str "new") (str "game") text \/ occurs (str "reset") text.
Proof.
  rewrite test_spec by reflexivity. rewrite <- newgame_occurs.
  apply occurs_trim; intros x L; apply keyword_text; auto.
Qed.

Lemma undo_test text :
  test true re_undo (trim text) = true
  <-> occurs (str "undo") text \/ occurs2 (str "take") (str "back") text.
Proof.
  rewrite test_spec by reflexivity. rewrite <- undo_occurs.
  apply occurs_trim; intros x L; apply keyword_text; auto.
Qed.

(** The three keyword tests of the parser, in terms of occurrences. *)
Lemma newgame_test_spec s :
  test true re_newgame s = true
  <-> occurs2 (str "new") (str "game") s \/ occurs (str "reset") s.
Proof. rewrite test_spec by reflexivity. apply newgame_occurs. Qed.

Lemma undo_test_spec s :
  test true re_undo s = true
  <-> occurs (str "undo") s \/ occurs2 (str "take") (str "back") s.
Proof. rewrite test_spec by reflexivity. apply undo_occurs. Qed.

Lemma castle_test_spec s :
  test true re_castle s = true
  <-> occurs (str "castle") s \/ occurs (str "castling") s.
Proof.
  rewrite test_spec by reflexivity. unfold occurs, re_castle. cbn [lang].
  split.
  - intros (pre & x & post & E & [L | L]); apply lit_lang_ci in L;
      [left | right]; exists pre, x, post; auto.
  - intros [(pre & x & post & E & L) | (pre & x & post & E & L)];
      apply lit_lang_ci in L; exists pre, x, post; auto.
Qed.

(** A transcript with a life-cycle keyword is not a compact move. *)
Lemma keyword_not_uci t :
  test true re_newgame t = true \/ test true re_undo t = true ->
  exec false re_uci (clean_of t) = None.
Proof.
  intros H.
  assert (exists pre x post, t = pre ++ x ++ post
            /\ (lang true re_newgame x \/ lang true re_undo x))
    as (pre & x & post & -> & L).
  { destruct H as [H | H]; apply test_spec in H; try reflexivity;
      destruct H as (pre & x & post & E & L); exists pre, x, post; auto. }
  apply keyword_text in L. destruct L as (_ & _ & c & I & F).
  apply (foreign_not_uci c); auto.
  apply in_or_app. right. apply in_or_app. left. exact I.
Qed.

(** The last two strategies return moves only. *)
Lemma parse_simple_is_move t c :
  parse_simple t = Some c -> exists from to, c = Move from to.
Proof.
  assert (M : forall a b, move_of a b = Some c -> exists from to, c = Move from to).
  { intros a b. unfold move_of. destruct a, b; try discriminate.
    destruct (truthy _ && truthy _); [|discriminate].
    intros H. inversion H. eauto. }
  assert (T : parse_tokens t = Some c -> exists from to, c = Move from to).
  { unfold parse_tokens. destruct (indexOf _ _); [|discriminate].
    destruct (Nat.leb _ _); [apply M | discriminate]. }
  unfold parse_simple. destruct (exec true re_simple t) as [m|]; [|exact T].
  destruct (move_of _ _) eqn:E; [|exact T].
  intros H. inversion H; subst. eapply M; eauto.
Qed.

(** C4, amended.  The life-cycle keywords are looked for anywhere in the
    transcript, also inside longer words: the parser returns [NewGame]
    exactly when the transcript contains new, any white space, game, or
    contains reset, in any case; it returns [Undo] exactly when the
    transcript contains none of these and contains undo, or take, any white
    space, back, in any case. *)
Theorem C4_keywords_anywhere (text : jsstring) :
  (parseVoiceCommand text = Some NewGame
   <-> occurs2 (str "new") (str "game") text \/ occurs (str "reset") text)
  /\ (parseVoiceCommand text = Some Undo
      <-> ~ (occurs2 (str "new") (str "game") text \/ occurs (str "reset") text)
          /\ (occurs (str "undo") text
              \/ occurs2 (str "take") (str "back") text)).
Proof.
  rewrite <- newgame_test, <- undo_test.
  unfold parseVoiceCommand. cbn zeta.
  pose proof (keyword_not_uci (trim text)) as U.
  destruct (test true re_newgame (trim text)) eqn:N.
  - rewrite U by auto. split; split; try discriminate; try reflexivity.
    intros [H _]. contradiction H. reflexivity.
  - destruct (test true re_undo (trim text)) eqn:D.
    + rewrite U by auto. split; split; try discriminate; try reflexivity.
      intros _. split; [discriminate | reflexivity].
    + assert (X : forall c, (c = NewGame \/ c = Undo) ->
                match exec false re_uci (clean_of (trim text)) with
                | Some uciMatch =>
                    Some (Move (group_text 1 uciMatch) (group_text 2 uciMatch))
                | None =>
                    if test true re_castle (trim text)
                    then if test true re_queen (trim text)
                         then Some (Castle queenside) else Some (Castle kingside)
                    else parse_simple (trim text)
                end <> Some c).
      { intros c Hc. destruct (exec false re_uci _).
        - destruct Hc as [-> | ->]; discriminate.
        - destruct (test true re_castle _).
          + destruct (test true re_queen _); destruct Hc as [-> | ->]; discriminate.
          + intros H. apply parse_simple_is_move in H.
            destruct H as (f & t' & ->). destruct Hc; discriminate. }
      split; split; try discriminate.
      * intros H. exfalso. apply (X NewGame); auto.
      * intros H. exfalso. apply (X Undo); auto.
      * intros [_ H]. discriminate.
Qed.

(** ** Squares by cases *)

(** A property of four characters that can be computed holds for all
    squares when it holds for the 64 x 64 pairs of squares. *)
Lemma is_file_In f : is_file f = true -> In f files.
Proof.
  ascii_cases f; intros H; try discriminate H; cbn; auto 10.
Qed.

Lemma is_rank_In r : is_rank r = true -> In r ranks.
Proof.
  ascii_cases r; intros H; try discriminate H; cbn; auto 10.
Qed.

Lemma for_squares_spec P f1 r1 f2 r2 :
  for_squares P = true ->
  is_file f1 = true -> is_rank r1 = true ->
  is_file f2 = true -> is_rank r2 = true ->
  P f1 r1 f2 r2 = true.
Proof.
  unfold for_squares. intros H F1 R1 F2 R2.
  rewrite forallb_forall in H. specialize (H f1 (is_file_In f1 F1)).
  rewrite forallb_forall in H. specialize (H r1 (is_rank_In r1 R1)).
  rewrite forallb_forall in H. specialize (H f2 (is_file_In f2 F2)).
  rewrite forallb_forall in H. exact (H r2 (is_rank_In r2 R2)).
Qed.

Lemma jsstring_eqb_eq a b : jsstring_eqb a b = true -> a = b.
Proof. unfold jsstring_eqb. destruct (list_eq_dec ascii_dec a b); congruence. Qed.

Lemma result_eqb_eq a b : result_eqb a b = true -> a = b.
Proof. unfold result_eqb. destruct (result_eq_dec a b); congruence. Qed.

Lemma is_none_eq {T} (o : option T) : is_none o = true -> o = None.
Proof. destruct o; [discriminate | reflexivity]. Qed.

(** File letters, rank digits and the other characters. *)
Lemma file_facts f :
  is_file f = true ->
  isWhiteSpace f = false /\ is_rank f = false /\ is_digit f = false.
Proof. ascii_cases f; intros H; try discriminate H; repeat split. Qed.

Lemma rank_facts r :
  is_rank r = true -> isWhiteSpace r = false /\ is_digit r = true.
Proof. ascii_cases r; intros H; try discriminate H; repeat split. Qed.

Lemma rank_class_ci c : class_match true rank c = is_rank c.
Proof. ascii_cases c; reflexivity. Qed.

Lemma lower_digit c : is_digit (toLowerCaseChar c) = is_digit c.
Proof. ascii_cases c; reflexivity. Qed.

(** ** The trimmed transcript *)

(** Trimming a text that ends with a character other than white
    space. *)
Lemma trimStart_app w v :
  trimStart (w ++ v)
  = match trimStart w with [] => trimStart v | _ :: _ => trimStart w ++ v end.
Proof.
  induction w as [|c w IH]; cbn; [reflexivity|].
  destruct (isWhiteSpace c); [exact IH | reflexivity].
Qed.

Lemma trimEnd_last s z : isWhiteSpace z = false -> trimEnd (s ++ [z]) = s ++ [z].
Proof.
  intros H. unfold trimEnd. rewrite rev_app_distr. cbn. rewrite H. cbn.
  rewrite rev_involutive. reflexivity.
Qed.

(** The parser sees its argument through [trim] only. *)
Lemma parse_of_trim a b :
  trim a = b -> trim b = b -> parseVoiceCommand a = parseVoiceCommand b.
Proof.
  intros H1 H2. unfold parseVoiceCommand. rewrite H1, H2. reflexivity.
Qed.

(** ** Searching a suffix *)

(** A search that finds nothing finds nothing in a suffix. *)
Lemma search_suffix ci r pre s b :
  search ci r b (pre ++ s) = None -> search ci r false s = None \/ pre = [].
Proof.
  revert b. induction pre as [|c pre IH]; intros b H; [right; reflexivity | left].
  cbn in H. destruct (match_at ci r b (c :: pre ++ s)); [discriminate|].
  destruct (IH false H) as [E | ->]; [exact E | exact H].
Qed.

(** ** Removing white space *)

(** Removing [/\s+/g] is filtering the white space out. *)
Lemma spaces_replace : forall s skip b,
  forallb isWhiteSpace (firstn skip s) = true -> skip <= length s ->
  replace_go false re_spaces skip b s = filter not_space s.
Proof.
  induction s as [|a s IH]; intros skip b F L; [reflexivity|].
  cbn [replace_go]. destruct skip as [|n].
  - destruct (match_at false re_spaces b (a :: s)) as [m|] eqn:E.
    + apply match_at_sound in E; [|reflexivity]. destruct E as (rest & E & Lm).
      pose proof (spaces_lang _ Lm) as W. destruct Lm as [NE _].
      destruct (matched m) as [|a' x]; [contradiction|].
      cbn in E. inversion E; subst a' s. cbn in W.
      apply andb_true_iff in W. destruct W as [Wa Wx].
      cbn [length filter]. unfold not_space at 1. rewrite Wa. cbn [negb].
      apply IH.
      * rewrite firstn_app, Nat.sub_diag, firstn_all. cbn. rewrite app_nil_r. exact Wx.
      * rewrite length_app. lia.
    + cbn [filter]. unfold not_space at 1.
      destruct (isWhiteSpace a) eqn:Wa.
      * exfalso. apply (match_at_complete false re_spaces b [a] s); [|exact E].
        cbn -[class_match]. split; [discriminate|]. rewrite ws_class_cs, Wa. reflexivity.
      * cbn [negb]. f_equal. apply IH; [reflexivity | lia].
  - cbn in F. apply andb_true_iff in F. destruct F as [Wa F].
    cbn [filter]. unfold not_space at 1. rewrite Wa. cbn [negb].
    apply IH; [exact F | cbn in L; lia].
Qed.

Lemma remove_spaces s : remove_all false re_spaces s = filter not_space s.
Proof. apply spaces_replace; [reflexivity | lia]. Qed.

(** ** Removing the connector words *)

(** A match of the connector words looks at three characters at most, and
    starts with a t. *)
Lemma tow_chars d :
  is_tow d = false ->
  char_match false "t" d = false /\ char_match false "o" d = false
  /\ char_match false "w" d = false.
Proof. ascii_cases d; intros H; try discriminate H; repeat split. Qed.

Lemma connector_match_app u d v b :
  is_tow d = false -> u <> [] ->
  match_at false re_connector b (u ++ d :: v) = match_at false re_connector b u.
Proof.
  intros Hd NE. destruct (tow_chars d Hd) as (Ht & Ho & Hw).
  unfold match_at.
  destruct u as [|c1 [|c2 [|c3 u]]]; [contradiction | | |];
    cbn -[char_match]; rewrite ?Ho, ?Hw;
    repeat match goal with
           | |- context [char_match false ?p ?c] =>
               destruct (char_match false p c)
           end; reflexivity.
Qed.

Lemma connector_match_other d v b :
  is_tow d = false -> match_at false re_connector b (d :: v) = None.
Proof.
  intros Hd. destruct (tow_chars d Hd) as (Ht & Ho & Hw).
  unfold match_at. cbn -[char_match]. rewrite Ht. reflexivity.
Qed.

(** A character that belongs to no connector word separates the text in
    two parts that are cleaned on their own. *)
Lemma connector_replace_app d v : is_tow d = false ->
  forall u skip b, skip <= length u ->
  replace_go false re_connector skip b (u ++ d :: v)
  = replace_go false re_connector skip b u
    ++ d :: replace_go false re_connector 0 false v.
Proof.
  intros Hd. induction u as [|a u IH]; intros skip b L.
  - cbn in L. assert (skip = 0) as -> by lia. cbn [app replace_go].
    rewrite connector_match_other by exact Hd. reflexivity.
  - cbn [app replace_go]. destruct skip as [|n].
    + change (a :: u ++ d :: v) with ((a :: u) ++ d :: v).
      rewrite connector_match_app by (auto; discriminate).
      destruct (match_at false re_connector b (a :: u)) as [m|] eqn:E.
      * apply match_at_sound in E; [|reflexivity]. destruct E as (rest & E & _).
        assert (length (matched m) <= S (length u)).
        { apply (f_equal (@length _)) in E. rewrite length_app in E. cbn in E. lia. }
        destruct (length (matched m)) as [|n].
        -- cbn [app]. f_equal. apply IH. lia.
        -- apply IH. lia.
      * cbn [app]. f_equal. apply IH. lia.
    + apply IH. cbn in L. lia.
Qed.

(** The cleaned text of two parts with white space between them. *)
Lemma clean_of_app u d v :
  isWhiteSpace d = true ->
  clean_of (u ++ d :: v)
  = clean_of u
    ++ filter not_space (replace_go false re_connector 0 false (toLowerCase v)).
Proof.
  intros Wd.
  assert (Ld : toLowerCaseChar d = d)
    by (revert Wd; ascii_cases d; intros H; try discriminate H; reflexivity).
  assert (Td : is_tow d = false)
    by (revert Wd; ascii_cases d; intros H; try discriminate H; reflexivity).
  unfold clean_of, toLowerCase. rewrite map_app. cbn [map]. rewrite Ld.
  unfold remove_all at 2. rewrite connector_replace_app by (auto; lia).
  rewrite !remove_spaces, filter_app. cbn [filter]. unfold not_space at 2.
  rewrite Wd. reflexivity.
Qed.

Lemma clean_of_no_digit u : no_digit u = true -> no_digit (clean_of u) = true.
Proof.
  unfold no_digit, clean_of. intros H. rewrite remove_spaces.
  assert (G : forall (Q : ascii -> bool) s, forallb Q s = true ->
            forallb Q (filter not_space s) = true).
  { intros Q s. induction s as [|c s IH]; cbn; [reflexivity|].
    intros Hc. apply andb_true_iff in Hc. destruct Hc as [Hc Hs].
    destruct (not_space c); cbn; [rewrite Hc|]; auto. }
  apply G. apply replace_go_forallb. unfold toLowerCase.
  rewrite forallb_forall in *. intros x I. apply in_map_iff in I.
  destruct I as (y & <- & I). rewrite lower_digit. apply H, I.
Qed.

(** ** A pattern in front of a tail it cannot enter *)

Section Barrier.

Context {A : Type}.
Variable d0 : ascii.
Variable rest0 : jsstring.
Let tail := d0 :: rest0.

(** When [k'] on a text does as well as [k] on the text followed by the
    tail, and the first character of the tail is in no way a character of
    the literal, the same holds with the literal in front. *)
Lemma lit_barrier kw (k k' : @cont A) :
  (forall p, In p kw -> char_match true p d0 = false) ->
  (forall b u op c, k b (u ++ tail) op c <> None -> k' b u op c <> None) ->
  forall b u op c,
    lit_match true kw b (u ++ tail) op c k <> None ->
    lit_match true kw b u op c k' <> None.
Proof.
  intros Hp Hk. induction kw as [|p kw IH]; intros b u op c.
  - apply Hk.
  - destruct u as [|d u]; cbn [app lit_match].
    + unfold tail. rewrite (Hp p (or_introl eq_refl)). auto.
    + destruct (char_match true p d); [|auto].
      apply IH. intros q Hq. apply Hp. right. exact Hq.
Qed.

(** The same for white space in front, when white space and then [k] fail
    on the tail itself. *)
Lemma star_barrier (k k' : @cont A) :
  (forall b op c, star_match true ws b tail op c k = None) ->
  (forall b u op c, k b (u ++ tail) op c <> None -> k' b u op c <> None) ->
  forall b u op c,
    star_match true ws b (u ++ tail) op c k <> None ->
    star_match true ws b u op c k' <> None.
Proof.
  intros Ht Hk b u. revert b. induction u as [|d u IH]; intros b op c.
  - cbn [app]. rewrite Ht. auto.
  - cbn [app star_match]. destruct (class_match true ws d).
    + destruct (star_match true ws false (u ++ tail) (consume d op) c k) eqn:E.
      * intros _. assert (N : star_match true ws false u (consume d op) c k' <> None).
        { apply IH. rewrite E. discriminate. }
        destruct (star_match true ws false u (consume d op) c k');
          [discriminate | contradiction].
      * intros H. apply (Hk b (d :: u)) in H.
        destruct (star_match true ws false u (consume d op) c k');
          [discriminate | exact H].
    + apply (Hk b (d :: u)).
Qed.

End Barrier.

(** A search that finds nothing in [u] and nothing in the tail finds
    nothing in [u] followed by the tail, when no match that starts in [u]
    can reach into the tail. *)
Lemma search_barrier ci r tail :
  (forall b, search ci r b tail = None) ->
  (forall b u, match_at ci r b (u ++ tail) <> None -> match_at ci r b u <> None) ->
  forall u b, search ci r b u = None -> search ci r b (u ++ tail) = None.
Proof.
  intros Ht Hm. induction u as [|d u IH]; intros b H.
  - apply Ht.
  - cbn [search] in H. cbn [app search].
    destruct (match_at ci r b (d :: u)) eqn:E; [discriminate|].
    destruct (match_at ci r b (d :: u ++ tail)) eqn:E2.
    + exfalso. apply (Hm b (d :: u)); [|exact E]. cbn [app]. rewrite E2. discriminate.
    + apply IH. exact H.
Qed.

(** The patterns of the keywords: a literal, or a literal, white space and
    a literal, and the alternatives of two such patterns. *)
Lemma lit_star_lit_barrier k1 k2 d0 rest0 :
  (forall p, In p k1 -> char_match true p d0 = false) ->
  (forall p, In p k2 -> char_match true p d0 = false) ->
  (forall b op c,
     star_match true ws b (d0 :: rest0) op c
       (fun b s o c => lit_match true k2 b s o c the_end) = None) ->
  forall b u op c,
    rmatch true (RLit k1 @@ RStar ws @@ RLit k2) b (u ++ d0 :: rest0) op c
      the_end <> None ->
    rmatch true (RLit k1 @@ RStar ws @@ RLit k2) b u op c the_end <> None.
Proof.
  intros H1 H2 Hs. cbn [rmatch].
  apply (lit_barrier d0 rest0 k1 _ _ H1).
  apply (star_barrier d0 rest0 _ _ Hs).
  apply (lit_barrier d0 rest0 k2 _ _ H2).
  intros b u op c _. discriminate.
Qed.

Lemma lit_only_barrier kw d0 rest0 :
  (forall p, In p kw -> char_match true p d0 = false) ->
  forall b u op c,
    rmatch true (RLit kw) b (u ++ d0 :: rest0) op c the_end <> None ->
    rmatch true (RLit kw) b u op c the_end <> None.
Proof.
  intros H. cbn [rmatch]. apply (lit_barrier d0 rest0 kw _ _ H).
  intros b u op c _. discriminate.
Qed.

Lemma alt_barrier r1 r2 tail :
  (forall b u op c, rmatch true r1 b (u ++ tail) op c the_end <> None ->
                    rmatch true r1 b u op c the_end <> None) ->
  (forall b u op c, rmatch true r2 b (u ++ tail) op c the_end <> None ->
                    rmatch true r2 b u op c the_end <> None) ->
  forall b u, match_at true (r1 ||| r2) b (u ++ tail) <> None ->
              match_at true (r1 ||| r2) b u <> None.
Proof.
  intros H1 H2 b u. unfold match_at. fold the_end. cbn [rmatch].
  specialize (H1 b u [[]] []). specialize (H2 b u [[]] []).
  destruct (rmatch true r1 b (u ++ tail) [[]] [] the_end).
  - intros _. destruct (rmatch true r1 b u [[]] [] the_end); [discriminate|].
    exfalso. apply H1; [discriminate | reflexivity].
  - intros H. destruct (rmatch true r1 b u [[]] [] the_end); [discriminate|].
    apply H2, H.
Qed.

(** The tail in question is a space and a spoken move. *)
Lemma space_is_no_letter kw :
  forallb (fun p => negb (char_match true p " ")) kw = true ->
  forall p, In p kw -> char_match true p " " = false.
Proof.
  intros H p I. rewrite forallb_forall in H. apply negb_true_iff, H, I.
Qed.

Section SpokenMove.

Variables f1 r1 f2 r2 : ascii.
Hypothesis F1 : is_file f1 = true.
Hypothesis R1 : is_rank r1 = true.
Hypothesis F2 : is_file f2 = true.
Hypothesis R2 : is_rank r2 = true.

Let tail := " " :: spoken f1 r1 f2 r2.

Lemma white_then_literal kw b op c :
  for_squares (fun f1 r1 f2 r2 =>
    is_none (star_match true ws b (" " :: spoken f1 r1 f2 r2) op c
               (fun b s o c => lit_match true kw b s o c the_end))) = true ->
  star_match true ws b tail op c
    (fun b s o c => lit_match true kw b s o c the_end) = None.
Proof.
  intros H. apply is_none_eq.
  exact (for_squares_spec
           (fun f1 r1 f2 r2 =>
              is_none (star_match true ws b (" " :: spoken f1 r1 f2 r2) op c
                         (fun b s o c => lit_match true kw b s o c the_end)))
           f1 r1 f2 r2 H F1 R1 F2 R2).
Qed.

Lemma newgame_barrier b u :
  match_at true re_newgame b (u ++ tail) <> None ->
  match_at true re_newgame b u <> None.
Proof.
  apply alt_barrier.
  - apply lit_star_lit_barrier; try (apply space_is_no_letter; reflexivity).
    intros. apply white_then_literal. vm_compute. reflexivity.
  - apply lit_only_barrier. apply space_is_no_letter. reflexivity.
Qed.

Lemma undo_barrier b u :
  match_at true re_undo b (u ++ tail) <> None ->
  match_at true re_undo b u <> None.
Proof.
  apply alt_barrier.
  - apply lit_only_barrier. apply space_is_no_letter. reflexivity.
  - apply lit_star_lit_barrier; try (apply space_is_no_letter; reflexivity).
    intros. apply white_then_literal. vm_compute. reflexivity.
Qed.

Lemma castle_barrier b u :
  match_at true re_castle b (u ++ tail) <> None ->
  match_at true re_castle b u <> None.
Proof.
  apply alt_barrier; apply lit_only_barrier; apply space_is_no_letter; reflexivity.
Qed.

Lemma keywords_not_in_tail b :
  search true re_newgame b tail = None
  /\ search true re_undo b tail = None
  /\ search true re_castle b tail = None.
Proof.
  pose (P := fun f1 r1 f2 r2 =>
            is_none (search true re_newgame b (" " :: spoken f1 r1 f2 r2))
            && is_none (search true re_undo b (" " :: spoken f1 r1 f2 r2))
            && is_none (search true re_castle b (" " :: spoken f1 r1 f2 r2))).
  assert (H : for_squares P = true) by (destruct b; vm_compute; reflexivity).
  pose proof (for_squares_spec P f1 r1 f2 r2 H F1 R1 F2 R2) as G.
  unfold P in G.
  apply andb_true_iff in G. destruct G as [G H3].
  apply andb_true_iff in G. destruct G as [H1 H2].
  repeat split; apply is_none_eq; assumption.
Qed.

End SpokenMove.

(** ** Patterns without anchors *)

(** A pattern without [^] matches in the same way at the beginning of the
    input and elsewhere. *)
Lemma search_any_bol ci r :
  (forall s, match_at ci r true s = match_at ci r false s) ->
  forall s b, search ci r b s = search ci r false s.
Proof.
  intros H s [|]; [|reflexivity].
  destruct s as [|d s]; cbn [search]; rewrite H; reflexivity.
Qed.

Lemma newgame_any_bol s b : search true re_newgame b s = search true re_newgame false s.
Proof. apply search_any_bol. intros [|d x]; reflexivity. Qed.

Lemma undo_any_bol s b : search true re_undo b s = search true re_undo false s.
Proof. apply search_any_bol. intros [|d x]; reflexivity. Qed.

Lemma castle_any_bol s b : search true re_castle b s = search true re_castle false s.
Proof. apply search_any_bol. intros [|d x]; reflexivity. Qed.

Lemma test_false_suffix ci r lead u :
  (forall s b, search ci r b s = search ci r false s) ->
  test ci r (lead ++ u) = false -> forall b, search ci r b u = None.
Proof.
  intros Hb H b. unfold test, exec in H.
  destruct (search ci r true (lead ++ u)) eqn:E; [discriminate|].
  rewrite Hb. destruct (search_suffix ci r lead u true E) as [G | ->]; [exact G|].
  cbn [app] in E. rewrite Hb in E. exact E.
Qed.

(** ** The pattern of a spoken move *)

(** The pattern of a spoken move starts with a file letter, white space
    and a rank digit: the rest of the pattern [K] is reached through a rank
    digit only. *)
Lemma simple_head :
  exists K : @cont match_result,
    (forall b s o c,
       match s with d :: _ => class_match true rank d = false | [] => True end ->
       K b s o c = None)
    /\ (forall b d s,
          match_at true re_simple b (d :: s)
          = if class_match true file_any d
            then star_match true ws false s [[d]; [d]] [] K
            else None).
Proof.
  eexists. split.
  2: { intros b d s. unfold match_at.
       cbn -[char_match class_match star_match]. reflexivity. }
  cbn beta. intros b [|d s] o c H; [reflexivity|]. rewrite H. reflexivity.
Qed.

(** No match starts in a text without digits that is followed by a space
    and a file letter. *)
Lemma star_without_rank (K : @cont match_result) f rest :
  (forall b s o c,
     match s with d :: _ => class_match true rank d = false | [] => True end ->
     K b s o c = None) ->
  is_file f = true ->
  forall u, no_digit u = true ->
  forall b op c, star_match true ws b (u ++ " " :: f :: rest) op c K = None.
Proof.
  intros HK Hf. destruct (file_facts f Hf) as (Wf & Rf & _).
  induction u as [|d u IH]; intros Hu b op c.
  - cbn -[class_match]. rewrite !ws_class_ci, Wf. cbn -[class_match].
    rewrite HK by (rewrite rank_class_ci; exact Rf).
    apply HK. reflexivity.
  - unfold no_digit in Hu. cbn [forallb] in Hu. fold (no_digit u) in Hu.
    apply andb_true_iff in Hu. destruct Hu as [Hd Hu].
    assert (Rd : class_match true rank d = false).
    { rewrite rank_class_ci. apply negb_true_iff in Hd.
      destruct (is_rank d) eqn:E; [|reflexivity].
      apply rank_facts in E. destruct E as [_ E]. congruence. }
    cbn [app star_match]. rewrite IH by exact Hu.
    destruct (class_match true ws d); apply HK; exact Rd.
Qed.

(** A canonical square is normalized to itself. *)
Lemma normalize_canonical f r :
  is_file f = true -> is_rank r = true ->
  normalizeSquare [f; r] = Some [f; r].
Proof.
  intros F R.
  pose (P := fun f r (_ _ : ascii) =>
    match normalizeSquare [f; r] with
    | Some s => jsstring_eqb s [f; r]
    | None => false
    end).
  assert (H : for_squares P = true) by (vm_compute; reflexivity).
  pose proof (for_squares_spec P f r f r H F R F R) as G. unfold P in G.
  destruct (normalizeSquare [f; r]); [|discriminate].
  apply jsstring_eqb_eq in G. rewrite G. reflexivity.
Qed.

Section SpokenMoveSearch.

Variables f1 r1 f2 r2 : ascii.
Hypothesis F1 : is_file f1 = true.
Hypothesis R1 : is_rank r1 = true.
Hypothesis F2 : is_file f2 = true.
Hypothesis R2 : is_rank r2 = true.

(** On a spoken move the pattern captures the two squares. *)
Lemma simple_on_spoken :
  exists m, match_at true re_simple false (spoken f1 r1 f2 r2) = Some m
    /\ group_text 1 m = [f1; r1] /\ group_text 3 m = [f2; r2].
Proof.
  pose (P := fun f1 r1 f2 r2 =>
    match match_at true re_simple false (spoken f1 r1 f2 r2) with
    | Some m => jsstring_eqb (group_text 1 m) [f1; r1]
                && jsstring_eqb (group_text 3 m) [f2; r2]
    | None => false
    end).
  assert (H : for_squares P = true) by (vm_compute; reflexivity).
  pose proof (for_squares_spec P f1 r1 f2 r2 H F1 R1 F2 R2) as G. unfold P in G.
  destruct (match_at true re_simple false (spoken f1 r1 f2 r2)) as [m|];
    [|discriminate].
  apply andb_true_iff in G. destruct G as [G1 G2].
  exists m. auto using jsstring_eqb_eq.
Qed.

(** After a text without digits and a space, the first spoken move that
    the search finds is the one after the space. *)
Lemma simple_search u b :
  no_digit u = true ->
  search true re_simple b (u ++ " " :: spoken f1 r1 f2 r2)
  = match_at true re_simple false (spoken f1 r1 f2 r2).
Proof.
  destruct simple_head as (K & HK & Hm).
  destruct simple_on_spoken as (m & Em & _).
  revert b. induction u as [|d u IH]; intros b Hu.
  - cbn [app search]. rewrite Hm. 
    replace (class_match true file_any " ") with false by reflexivity.
    unfold spoken. cbn [app search]. fold (spoken f1 r1 f2 r2).
    unfold spoken in Em. cbn [app] in Em. rewrite Em. reflexivity.
  - cbn [app search]. rewrite Hm.
    unfold no_digit in Hu. cbn [forallb] in Hu. fold (no_digit u) in Hu.
    apply andb_true_iff in Hu. destruct Hu as [Hd Hu].
    unfold spoken at 1. cbn [app].
    rewrite (star_without_rank K f1 _ HK F1 u Hu).
    destruct (class_match true file_any d); apply IH; exact Hu.
Qed.

(** A spoken move alone is parsed to its move, and its cleaned text is the
    compact move. *)
Lemma parse_spoken :
  parseVoiceCommand (spoken f1 r1 f2 r2) = Some (Move [f1; r1] [f2; r2]).
Proof.
  pose (P := fun f1 r1 f2 r2 =>
    result_eqb (parseVoiceCommand (spoken f1 r1 f2 r2))
               (Some (Move [f1; r1] [f2; r2]))).
  assert (H : for_squares P = true) by (vm_compute; reflexivity).
  apply result_eqb_eq.
  exact (for_squares_spec P f1 r1 f2 r2 H F1 R1 F2 R2).
Qed.

Lemma clean_spoken :
  filter not_space
    (replace_go false re_connector 0 false (toLowerCase (spoken f1 r1 f2 r2)))
  = [f1; r1; f2; r2].
Proof.
  pose (P := fun f1 r1 f2 r2 =>
    jsstring_eqb
      (filter not_space
         (replace_go false re_connector 0 false
            (toLowerCase (spoken f1 r1 f2 r2))))
      [f1; r1; f2; r2]).
  assert (H : for_squares P = true) by (vm_compute; reflexivity).
  apply jsstring_eqb_eq.
  exact (for_squares_spec P f1 r1 f2 r2 H F1 R1 F2 R2).
Qed.

End SpokenMoveSearch.

Section MoveInsideTranscript.

Variables f1 r1 f2 r2 : ascii.
Hypothesis F1 : is_file f1 = true.
Hypothesis R1 : is_rank r1 = true.
Hypothesis F2 : is_file f2 = true.
Hypothesis R2 : is_rank r2 = true.

Lemma spoken_last : spoken f1 r1 f2 r2 = [f1; r1; " "; "t"; "o"; " "; f2] ++ [r2].
Proof. reflexivity. Qed.

Lemma trim_spoken : trim (spoken f1 r1 f2 r2) = spoken f1 r1 f2 r2.
Proof.
  destruct (file_facts f1 F1) as (W1 & _). destruct (rank_facts r2 R2) as (W2 & _).
  unfold trim. unfold spoken at 1. cbn [app trimStart]. rewrite W1.
  change (trimEnd (spoken f1 r1 f2 r2) = spoken f1 r1 f2 r2).
  rewrite spoken_last. apply trimEnd_last, W2.
Qed.

(** The trimmed transcript: the spoken move alone, or what is left of the
    word, a space and the spoken move. *)
Lemma trim_word_and_move w :
  trim (w ++ " " :: spoken f1 r1 f2 r2)
  = match trimStart w with
    | [] => spoken f1 r1 f2 r2
    | _ :: _ => trimStart w ++ " " :: spoken f1 r1 f2 r2
    end.
Proof.
  destruct (file_facts f1 F1) as (W1 & _). destruct (rank_facts r2 R2) as (W2 & _).
  unfold trim. rewrite trimStart_app. destruct (trimStart w) as [|d u].
  - unfold spoken at 1. cbn [app trimStart isWhiteSpace]. 
    replace (isWhiteSpace " ") with true by reflexivity. rewrite W1.
    change (trimEnd (spoken f1 r1 f2 r2) = spoken f1 r1 f2 r2).
    rewrite spoken_last. apply trimEnd_last, W2.
  - rewrite spoken_last.
    change ((d :: u) ++ " " :: [f1; r1; " "; "t"; "o"; " "; f2] ++ [r2])
      with ((d :: u) ++ (" " :: [f1; r1; " "; "t"; "o"; " "; f2]) ++ [r2]).
    rewrite app_assoc. apply trimEnd_last, W2.
Qed.

(** When the compact pattern matches the cleaned text of a text without
    digits, a space and a spoken move, it captures the two squares of the
    spoken move. *)
Lemma uci_on_spoken u m :
  no_digit u = true -> 
  exec false re_uci (clean_of (u ++ " " :: spoken f1 r1 f2 r2)) = Some m ->
  group_text 1 m = [f1; r1] /\ group_text 2 m = [f2; r2].
Proof.
  intros Hu H. rewrite clean_of_app in H by reflexivity.
  rewrite (clean_spoken f1 r1 f2 r2 F1 R1 F2 R2) in H.
  pose proof (clean_of_no_digit u Hu) as Hc.
  apply uci_shape in H.
  destruct H as (a & b & c & d & p & E & _ & Rb & _ & _ & _ & G1 & G2).
  rewrite G1, G2.
  destruct (clean_of u) as [|x [|y cu]]; cbn [app] in E.
  - inversion E. auto.
  - exfalso. inversion E; subst. destruct (file_facts _ F1) as (_ & X & _). congruence.
  - exfalso. inversion E; subst. unfold no_digit in Hc. cbn [forallb] in Hc.
    apply andb_true_iff in Hc. destruct Hc as [_ Hc].
    apply andb_true_iff in Hc. destruct Hc as [Hy _].
    apply negb_true_iff in Hy. destruct (rank_facts _ Rb) as (_ & X). congruence.
Qed.

End MoveInsideTranscript.

(** C9.  The pattern of a spoken move is looked for anywhere in the
    transcript: for every text [w] without a digit in which none of the
    keywords new game, reset, undo, take back, castle and castling occurs
    (in any case, with any white space inside new game and take back), and
    for all squares f1r1 and f2r2, the transcript "w f1r1 to f2r2" is
    parsed to the move from f1r1 to f2r2. *)
Theorem C9_move_after_any_word (w : jsstring) (f1 r1 f2 r2 : ascii) :
  is_file f1 = true -> is_rank r1 = true ->
  is_file f2 = true -> is_rank r2 = true ->
  no_digit w = true ->
  ~ occurs2 (str "new") (str "game") w ->
  ~ occurs (str "reset") w ->
  ~ occurs (str "undo") w ->
  ~ occurs2 (str "take") (str "back") w ->
  ~ occurs (str "castle") w ->
  ~ occurs (str "castling") w ->
  parseVoiceCommand (w ++ str " " ++ [f1; r1] ++ str " to " ++ [f2; r2])
  = Some (Move [f1; r1] [f2; r2]).
Proof.
  intros F1 R1 F2 R2 Hw N1 N2 N3 N4 N5 N6.
  assert (Hn : test true re_newgame w = false).
  { destruct (test true re_newgame w) eqn:E; [|reflexivity].
    apply newgame_test_spec in E. tauto. }
  assert (Hu : test true re_undo w = false).
  { destruct (test true re_undo w) eqn:E; [|reflexivity].
    apply undo_test_spec in E. tauto. }
  assert (Hc : test true re_castle w = false).
  { destruct (test true re_castle w) eqn:E; [|reflexivity].
    apply castle_test_spec in E. tauto. }
  clear N1 N2 N3 N4 N5 N6.
  change (w ++ str " " ++ [f1; r1] ++ str " to " ++ [f2; r2])
    with (w ++ " " :: spoken f1 r1 f2 r2).
  pose proof (trim_word_and_move f1 r1 f2 r2 F1 R2 w) as T.
  destruct (trimStart_suffix w) as [lead Ew].
  destruct (trimStart w) as [|d u].
  - (* nothing but white space before the move *)
    rewrite (parse_of_trim _ _ T (trim_spoken f1 r1 f2 r2 F1 R2)).
    apply parse_spoken; assumption.
  - set (v := d :: u) in *.
    assert (Dv : no_digit v = true).
    { unfold no_digit in *. rewrite Ew, forallb_app in Hw.
      apply andb_true_iff in Hw. apply Hw. }
    rewrite Ew in Hn, Hu, Hc.
    pose proof (test_false_suffix true re_newgame lead v newgame_any_bol Hn)
      as Sn.
    pose proof (test_false_suffix true re_undo lead v undo_any_bol Hu) as Su.
    pose proof (test_false_suffix true re_castle lead v castle_any_bol Hc)
      as Sc.
    pose proof (keywords_not_in_tail f1 r1 f2 r2 F1 R1 F2 R2) as K.
    unfold parseVoiceCommand. cbn zeta. rewrite T.
    destruct (exec false re_uci (clean_of (v ++ " " :: spoken f1 r1 f2 r2)))
      as [m|] eqn:E.
    + (* the compact pattern matches: the word has left nothing *)
      apply (uci_on_spoken f1 r1 f2 r2 F1 R1 F2 R2) in E; [|exact Dv].
      destruct E as [-> ->]. reflexivity.
    + (* no keyword, and the first spoken move is the one after the word *)
      unfold test, exec.
      rewrite (search_barrier true re_newgame (" " :: spoken f1 r1 f2 r2)
                 (fun b => proj1 (K b))
                 (newgame_barrier f1 r1 f2 r2 F1 R1 F2 R2) v true (Sn true)).
      rewrite (search_barrier true re_undo (" " :: spoken f1 r1 f2 r2)
                 (fun b => proj1 (proj2 (K b)))
                 (undo_barrier f1 r1 f2 r2 F1 R1 F2 R2) v true (Su true)).
      rewrite (search_barrier true re_castle (" " :: spoken f1 r1 f2 r2)
                 (fun b => proj2 (proj2 (K b)))
                 (castle_barrier f1 r1 f2 r2) v true (Sc true)).
      unfold parse_simple, exec.
      rewrite (simple_search f1 r1 f2 r2 F1 R1 F2 R2 v true Dv).
      destruct (simple_on_spoken f1 r1 f2 r2 F1 R1 F2 R2) as (m & -> & -> & ->).
      rewrite (normalize_canonical f1 r1 F1 R1), (normalize_canonical f2 r2 F2 R2).
      reflexivity.
Qed.

(** None of the keywords occurs in "knight". *)
Lemma knight_has_no_keyword :
  ~ occurs2 (str "new") (str "game") (str "knight")
  /\ ~ occurs (str "reset") (str "knight")
  /\ ~ occurs (str "undo") (str "knight")
  /\ ~ occurs2 (str "take") (str "back") (str "knight")
  /\ ~ occurs (str "castle") (str "knight")
  /\ ~ occurs (str "castling") (str "knight").
Proof.
  assert (Hn : test true re_newgame (str "knight") <> true)
    by (vm_compute; discriminate).
  assert (Hu : test true re_undo (str "knight") <> true)
    by (vm_compute; discriminate).
  assert (Hc : test true re_castle (str "knight") <> true)
    by (vm_compute; discriminate).
  rewrite newgame_test_spec in Hn. rewrite undo_test_spec in Hu.
  rewrite castle_test_spec in Hc. tauto.
Defined.

(** C9 at "knight g1 to f3". *)
Lemma C9_move_after_any_word_witness :
  is_file "g" = true /\ is_rank "1" = true
  /\ is_file "f" = true /\ is_rank "3" = true
  /\ no_digit (str "knight") = true
  /\ ~ occurs2 (str "new") (str "game") (str "knight")
  /\ ~ occurs (str "reset") (str "knight")
  /\ ~ occurs (str "undo") (str "knight")
  /\ ~ occurs2 (str "take") (str "back") (str "knight")
  /\ ~ occurs (str "castle") (str "knight")
  /\ ~ occurs (str "castling") (str "knight")
  /\ parseVoiceCommand (str "knight g1 to f3")
     = Some (Move (str "g1") (str "f3")).
Proof.
  destruct knight_has_no_keyword as (N1 & N2 & N3 & N4 & N5 & N6).
  repeat (split; [reflexivity || assumption|]).
  apply (C9_move_after_any_word (str "knight") "g" "1" "f" "3");
    reflexivity || assumption.
Defined.

(** ** The compact move with fillers *)

(** The cleaned text of a text with white space or with a character of a
    compact move in it. *)
Lemma connector_any_bol : forall s skip b,
  replace_go false re_connector skip b s
  = replace_go false re_connector skip false s.
Proof.
  intros s skip [|]; [|reflexivity].
  destruct s as [|d s]; [reflexivity|]. destruct skip; reflexivity.
Qed.

Lemma clean_of_space u d v :
  isWhiteSpace d = true -> clean_of (u ++ d :: v) = clean_of u ++ clean_of v.
Proof.
  intros W. rewrite clean_of_app by exact W. f_equal.
  unfold clean_of. rewrite remove_spaces. unfold remove_all.
  rewrite (connector_any_bol _ 0 true). reflexivity.
Qed.

Lemma uci_char_facts c :
  uci_char c = true ->
  toLowerCaseChar c = c /\ is_tow c = false /\ isWhiteSpace c = false.
Proof. ascii_cases c; intros H; try discriminate H; repeat split. Qed.

Lemma clean_of_char u c v :
  uci_char c = true -> clean_of (u ++ c :: v) = clean_of u ++ c :: clean_of v.
Proof.
  intros H. destruct (uci_char_facts c H) as (L & T & W).
  unfold clean_of, toLowerCase. rewrite map_app. cbn [map]. rewrite L.
  unfold remove_all at 2. rewrite connector_replace_app by (auto; lia).
  rewrite !remove_spaces, filter_app. cbn [filter]. unfold not_space at 2.
  rewrite W. cbn [negb]. unfold remove_all.
  rewrite !(connector_any_bol _ 0 true). reflexivity.
Qed.

(** Nothing is left of white space and of the words to and two; what is
    left of a compact move with such fillers is the compact move. *)
Lemma clean_of_filler g : filler [str "to"; str "two"] g -> clean_of g = [].
Proof.
  induction 1 as [|c g W _ IH|w g I _ IH].
  - reflexivity.
  - rewrite <- (app_nil_l (c :: g)), clean_of_space by exact W. exact IH.
  - rewrite <- IH. unfold clean_of, remove_all. f_equal.
    destruct I as [<- | [<- | []]]; unfold toLowerCase;
      change (replace_go false re_connector 0 false (map toLowerCaseChar g)
              = replace_go false re_connector 0 true (map toLowerCaseChar g));
      symmetry; apply connector_any_bol.
Qed.

Lemma clean_of_interspersed base t :
  interspersed [str "to"; str "two"] base t ->
  forallb uci_char base = true -> clean_of t = base.
Proof.
  induction 1 as [g G | g c base t G _ IH]; intros U.
  - apply clean_of_filler, G.
  - cbn in U. apply andb_true_iff in U. destruct U as [Uc U].
    rewrite clean_of_char, (clean_of_filler g G), IH by assumption.
    reflexivity.
Qed.

Lemma trimStart_split s :
  exists lead, s = lead ++ trimStart s /\ forallb isWhiteSpace lead = true.
Proof.
  induction s as [|c s (lead & E & W)]; cbn.
  - exists []. auto.
  - destruct (isWhiteSpace c) eqn:Wc.
    + exists (c :: lead). cbn [app forallb]. rewrite Wc, W, <- E. auto.
    + exists []. auto.
Qed.

Lemma clean_of_lead lead s :
  forallb isWhiteSpace lead = true -> clean_of (lead ++ s) = clean_of s.
Proof.
  induction lead as [|d lead IH]; intros W; [reflexivity|].
  cbn in W. apply andb_true_iff in W. destruct W as [Wd W].
  change ((d :: lead) ++ s) with ([] ++ d :: (lead ++ s)).
  rewrite clean_of_space by exact Wd. apply IH, W.
Qed.

Lemma clean_of_trail s trail :
  forallb isWhiteSpace trail = true -> clean_of (s ++ trail) = clean_of s.
Proof.
  destruct trail as [|d trail]; intros W; [rewrite app_nil_r; reflexivity|].
  cbn in W. apply andb_true_iff in W. destruct W as [Wd W].
  rewrite clean_of_space by exact Wd.
  rewrite <- (app_nil_r trail), clean_of_lead by exact W. apply app_nil_r.
Qed.

(** The cleaned text does not depend on the white space at the ends. *)
Lemma clean_of_trim s : clean_of (trim s) = clean_of s.
Proof.
  destruct (trimStart_split s) as (lead & E & W).
  destruct (trimStart_split (rev (trimStart s))) as (trail & E2 & W2).
  assert (E3 : trimStart s = trim s ++ rev trail).
  { unfold trim, trimEnd. rewrite <- rev_app_distr, <- E2, rev_involutive.
    reflexivity. }
  rewrite E at 2. rewrite clean_of_lead by exact W. rewrite E3.
  symmetry. apply clean_of_trail.
  rewrite forallb_forall in *. intros x I. apply W2, in_rev, I.
Qed.

(** The compact pattern on a compact move. *)
Lemma uci_on_compact f1 r1 f2 r2 p :
  is_file f1 = true -> is_rank r1 = true ->
  is_file f2 = true -> is_rank r2 = true ->
  p = [] \/ (exists c, p = [c] /\ is_promotion c = true) ->
  exists m, exec false re_uci ([f1; r1; f2; r2] ++ p) = Some m
    /\ group_text 1 m = [f1; r1] /\ group_text 2 m = [f2; r2].
Proof.
  intros F1 R1 F2 R2 P. rewrite uci_first. unfold match_at.
  destruct P as [-> | (c & -> & P)]; cbn -[class_match];
    rewrite ?file_lc_class, ?rank_class, ?promo_class, ?F1, ?R1, ?F2, ?R2, ?P;
    eexists; split; try reflexivity; split; reflexivity.
Qed.

(** C1 without the word "too": a compact move with white space and the
    connector words "to" and "two" anywhere between its characters is
    parsed to the move from its first square to its second square, with or
    without a promotion letter. *)
Theorem compact_move_with_to_and_two (f1 r1 f2 r2 : ascii) (p t : jsstring) :
  is_file f1 = true -> is_rank r1 = true ->
  is_file f2 = true -> is_rank r2 = true ->
  p = [] \/ (exists c, p = [c] /\ is_promotion c = true) ->
  interspersed [str "to"; str "two"] ([f1; r1; f2; r2] ++ p) t ->
  parseVoiceCommand t = Some (Move [f1; r1] [f2; r2]).
Proof.
  intros F1 R1 F2 R2 P I.
  destruct (uci_on_compact f1 r1 f2 r2 p F1 R1 F2 R2 P) as (m & E & G1 & G2).
  unfold parseVoiceCommand. cbn zeta. rewrite clean_of_trim.
  rewrite (clean_of_interspersed _ _ I), E, G1, G2; [reflexivity|].
  unfold uci_char. cbn. rewrite F1, R1, F2, R2. cbn. rewrite !orb_true_r. cbn.
  destruct P as [-> | (c & -> & P)]; cbn; [reflexivity|].
  rewrite P, !orb_true_r. reflexivity.
Qed.

(** ** The squares of a move *)

(** The two anchored patterns of [normalizeSquare] match a file letter in
    either case followed by a rank digit, and nothing else. *)
Lemma square_later s : search false re_square false s = None.
Proof. induction s as [|d s IH]; cbn; [reflexivity | exact IH]. Qed.

Lemma square_groups_later s : search false re_square_groups false s = None.
Proof. induction s as [|d s IH]; cbn; [reflexivity | exact IH]. Qed.

Lemma file_any_class c :
  class_match false file_any c = true -> is_file (toLowerCaseChar c) = true.
Proof. ascii_cases c; intros H; try discriminate H; reflexivity. Qed.

Lemma rank_lower c : is_rank c = true -> toLowerCaseChar c = c.
Proof. ascii_cases c; intros H; try discriminate H; reflexivity. Qed.

Lemma square_shape s :
  exec false re_square s <> None \/ exec false re_square_groups s <> None ->
  exists a b, s = [a; b] /\ class_match false file_any a = true /\ is_rank b = true.
Proof.
  unfold exec.
  assert (E1 : search false re_square true s = match_at false re_square true s).
  { destruct s as [|d s]; cbn [search]; [|rewrite square_later];
      destruct (match_at false re_square true _); reflexivity. }
  assert (E2 : search false re_square_groups true s
               = match_at false re_square_groups true s).
  { destruct s as [|d s]; cbn [search]; [|rewrite square_groups_later];
      destruct (match_at false re_square_groups true _); reflexivity. }
  rewrite E1, E2. unfold match_at.
  destruct s as [|a [|b [|c s]]]; cbn -[class_match]; rewrite ?rank_class;
    try (intros [H | H]; contradiction H; reflexivity).
  - destruct (class_match false file_any a); intros [H | H]; contradiction H; reflexivity.
  - destruct (class_match false file_any a) eqn:Fa;
      [|intros [H | H]; contradiction H; reflexivity].
    destruct (is_rank b) eqn:Rb; [|intros [H | H]; contradiction H; reflexivity].
    intros _. exists a, b. auto.
  - destruct (class_match false file_any a), (is_rank b);
      intros [H | H]; contradiction H; reflexivity.
Qed.

Lemma square_groups_matched s m :
  exec false re_square_groups s = Some m -> matched m = s.
Proof.
  intros H. destruct (square_shape s) as (a & b & -> & Fa & Rb).
  { right. rewrite H. discriminate. }
  revert H. unfold exec. cbn -[class_match]. rewrite rank_class, Fa, Rb.
  intros H. inversion H. reflexivity.
Qed.

(** The two lookup tables. *)
Lemma fileMap_get a :
  Obj.toBoolean (Obj.get fileMap [a]) = true ->
  is_file a = true /\ Obj.toString (Obj.get fileMap [a]) = [a].
Proof. ascii_cases a; intros H; try discriminate H; split; reflexivity. Qed.

Lemma rankMap_get key v :
  Obj.assoc rankMap key = Some v -> exists d, v = [d] /\ is_rank d = true.
Proof.
  unfold rankMap. cbn [Obj.assoc].
  repeat (destruct (jsstring_eqb _ key);
          [intros H; inversion H; eexists; split; reflexivity|]).
  discriminate.
Qed.

(** What [normalizeSquare] returns: a canonical square, or a file letter
    and the text of a property of [Object.prototype]. *)
Lemma normalizeSquare_result input s :
  normalizeSquare input = Some s ->
  canonical_square s = true \/ inherited_square s.
Proof.
  unfold normalizeSquare. cbn zeta.
  set (cleaned := remove_all false re_spaces (trim input)).
  assert (C : exec false re_square cleaned <> None
              \/ exec false re_square_groups cleaned <> None ->
              canonical_square (toLowerCase cleaned) = true).
  { intros H. apply square_shape in H. destruct H as (a & b & -> & Fa & Rb).
    cbn. rewrite (file_any_class a Fa), (rank_lower b Rb), Rb. reflexivity. }
  unfold test. destruct (exec false re_square cleaned) eqn:E1.
  { intros H. inversion H. left. apply C. left. discriminate. }
  destruct (exec false re_square_groups cleaned) eqn:E2.
  { intros H. inversion H. left. rewrite (square_groups_matched _ _ E2).
    apply C. right. discriminate. }
  clear C E1 E2. destruct cleaned as [|a key].
  { cbn. discriminate. }
  cbn [charAt0 hd_error Obj.key_of slice1 tl].
  destruct (Obj.toBoolean (Obj.get fileMap [a])) eqn:Tf; [|discriminate].
  destruct (fileMap_get a Tf) as (Fa & ->).
  unfold Obj.get at 1 2. destruct (Obj.assoc rankMap key) as [v|] eqn:Er.
  - destruct (rankMap_get key v Er) as (d & -> & Rd).
    cbn. intros H. inversion H. left. cbn. rewrite Fa, Rd. reflexivity.
  - destruct (Obj.assoc Obj.Object_prototype key) as [v|] eqn:Ep.
    + destruct (Obj.toBoolean v); [|discriminate].
      cbn [andb app]. intros H. inversion H. right. exists a, key, v. auto.
    + discriminate.
Qed.

Lemma move_of_result x y from to :
  move_of x y = Some (Move from to) -> x = Some from /\ y = Some to.
Proof.
  unfold move_of. destruct x as [f|], y as [t|]; try discriminate.
  destruct (truthy (Some f) && truthy (Some t)); [|discriminate].
  intros H. inversion H. auto.
Qed.

(** ** Captures *)

Section Captures.
Context {A : Type}.
Implicit Types k : @cont A.

(** Soundness of the matcher with the captures. *)
Lemma rmatch_captures ci r :
  forall b s op c k a,
  rmatch ci r b s op c k = Some a ->
  anchor_free r = true ->
  exists x rest b' cs, s = x ++ rest /\ captured ci r x cs
    /\ k b' rest (map (app (rev x)) op) (cs ++ c) = Some a.
Proof.
  induction r as [l|cl|cl|cl|r IH|r1 IH1 r2 IH2|r1 IH1 r2 IH2|n r IH| |];
    intros b s op c k a H AF; cbn [anchor_free] in AF; try discriminate.
  - cbn [rmatch] in H. apply lit_match_sound in H.
    destruct H as (x & rest & b' & ? & ? & ?).
    exists x, rest, b', []. cbn; auto.
  - cbn [rmatch] in H. destruct s as [|d s]; [discriminate|].
    destruct (class_match ci cl d) eqn:E; [|discriminate].
    rewrite <- (pushed_nil (consume d op)), pushed_cons in H.
    exists [d], s, false, []. cbn -[class_match]. repeat split; eauto.
  - cbn [rmatch] in H. apply star_match_sound in H.
    destruct H as (x & rest & b' & ? & ? & ?).
    exists x, rest, b', []. cbn -[class_match]; auto.
  - cbn [rmatch] in H. destruct s as [|d s]; [discriminate|].
    destruct (class_match ci cl d) eqn:E; [|discriminate].
    apply star_match_sound in H. destruct H as (x & rest & b' & -> & F & H).
    rewrite pushed_cons in H.
    exists (d :: x), rest, b', []. cbn -[class_match]. rewrite E, F.
    repeat split; auto. discriminate.
  - cbn [rmatch] in H. destruct (rmatch ci r b s op c k) eqn:E.
    + inversion H; subst. apply IH in E; auto.
      destruct E as (x & rest & b' & cs & ? & ? & ?).
      exists x, rest, b', cs. cbn [captured]. auto.
    + exists [], s, b, []. rewrite pushed_nil. cbn [captured app]. auto.
  - apply andb_true_iff in AF. destruct AF as [AF1 AF2]. cbn [rmatch] in H.
    apply IH1 in H; auto. destruct H as (x1 & rest1 & b1 & cs1 & -> & L1 & H).
    apply IH2 in H; auto. destruct H as (x2 & rest & b2 & cs2 & -> & L2 & H).
    rewrite pushed_app, app_assoc in H.
    exists (x1 ++ x2), rest, b2, (cs2 ++ cs1). rewrite <- app_assoc.
    split; [reflexivity|]. split; [|exact H].
    cbn [captured]. exists x1, x2, cs1, cs2. auto.
  - apply andb_true_iff in AF. destruct AF as [AF1 AF2]. cbn [rmatch] in H.
    destruct (rmatch ci r1 b s op c k) eqn:E.
    + inversion H; subst. apply IH1 in E; auto.
      destruct E as (x & rest & b' & cs & ? & ? & ?).
      exists x, rest, b', cs. cbn [captured]. auto.
    + apply IH2 in H; auto.
      destruct H as (x & rest & b' & cs & ? & ? & ?).
      exists x, rest, b', cs. cbn [captured]. auto.
  - cbn [rmatch] in H. apply IH in H; auto.
    destruct H as (x & rest & b' & cs & -> & L & H).
    cbn [map tl hd] in H. rewrite app_nil_r, rev_involutive in H.
    exists x, rest, b', ((n, x) :: cs). split; [reflexivity|].
    split; [|exact H]. cbn [captured]. eauto.
Qed.

End Captures.

Lemma match_at_captures ci r b s m : anchor_free r = true ->
  match_at ci r b s = Some m ->
  exists rest, s = matched m ++ rest /\ captured ci r (matched m) (groups m).
Proof.
  intros AF H. unfold match_at in H. apply rmatch_captures in H; auto.
  destruct H as (x & rest & b' & cs & -> & L & H). cbn in H.
  rewrite !app_nil_r, rev_involutive in H. inversion H; subst. cbn. eauto.
Qed.

Lemma search_captures ci r : anchor_free r = true -> forall s b m,
  search ci r b s = Some m -> captured ci r (matched m) (groups m).
Proof.
  intros AF. induction s as [|d s IH]; intros b m H; cbn [search] in H.
  - destruct (match_at ci r b []) eqn:E; [|discriminate].
    inversion H; subst. apply match_at_captures in E; auto.
    destruct E as (_ & _ & E). exact E.
  - destruct (match_at ci r b (d :: s)) eqn:E.
    + inversion H; subst. apply match_at_captures in E; auto.
      destruct E as (_ & _ & E). exact E.
    + eapply IH; eauto.
Qed.

(** The groups of the pattern of a spoken move are squares as they are
    said. *)
Lemma said_square_pattern x cs :
  captured true (RSet file_any @@ RStar ws @@ RSet rank) x cs ->
  cs = [] /\ said_square x.
Proof.
  cbn -[class_match].
  intros (x12 & x3 & cs12 & cs3 & -> & -> & H12 & -> & r & -> & Fr).
  destruct H12 as (x1 & x2 & cs1 & cs2 & -> & -> & (-> & f & -> & Ff) & -> & Fs).
  split; [reflexivity|]. exists f, x2, r.
  rewrite rank_class_ci in Fr.
  rewrite (forallb_same _ isWhiteSpace) in Fs by apply ws_class_ci.
  repeat split; auto.
Qed.

(** The groups of the pattern of a spoken move. *)
Lemma simple_groups t m :
  exec true re_simple t = Some m ->
  said_square (group_text 1 m) /\ said_square (group_text 3 m).
Proof.
  intros H. apply search_captures in H; [|reflexivity].
  unfold re_simple in H. cbn [captured] in H.
  destruct H as (x1234 & x5 & cs1234 & cs5 & _ & E5 & H & (c5 & -> & H5)).
  destruct H as (x123 & x4 & cs123 & cs4 & _ & -> & H & (-> & _)).
  destruct H as (x12 & x3 & cs12 & cs3 & _ & -> & H & H3).
  destruct H as (x1 & x2 & cs1 & cs2 & _ & -> & (c1 & -> & H1) & (-> & _)).
  apply said_square_pattern in H1, H5. destruct H1 as [-> S1], H5 as [-> S5].
  unfold group_text, group. rewrite E5. cbn [app capture Nat.eqb].
  split; [|exact S5].
  destruct H3 as [[_ ->] | (c3 & -> & [[(-> & _) | (-> & _)] | (-> & _)])];
    cbn; exact S1.
Qed.

Lemma file_any_facts f :
  class_match true file_any f = true ->
  class_match false file_any f = true /\ isWhiteSpace f = false.
Proof. ascii_cases f; intros H; try discriminate H; split; reflexivity. Qed.

Lemma trim_said f sp r :
  isWhiteSpace f = false -> isWhiteSpace r = false ->
  trim (f :: sp ++ [r]) = f :: sp ++ [r].
Proof.
  intros Wf Wr. unfold trim. cbn [trimStart]. rewrite Wf.
  change (f :: sp ++ [r]) with ((f :: sp) ++ [r]). apply trimEnd_last, Wr.
Qed.

(** A square as it is said is normalized to its canonical form. *)
Lemma normalize_said x :
  said_square x ->
  exists s, normalizeSquare x = Some s /\ canonical_square s = true.
Proof.
  intros (f & sp & r & -> & Ff & Fs & Rr).
  destruct (file_any_facts f Ff) as (Ff' & Wf).
  destruct (rank_facts r Rr) as (Wr & _).
  unfold normalizeSquare. cbn zeta. rewrite trim_said, remove_spaces by assumption.
  assert (E : filter not_space (f :: sp ++ [r]) = [f; r]).
  { cbn [filter]. unfold not_space at 1. rewrite Wf. cbn [negb]. f_equal.
    rewrite filter_app. cbn [filter]. unfold not_space at 2. rewrite Wr.
    cbn [negb]. replace (filter not_space sp) with (@nil ascii); [reflexivity|].
    clear -Fs. induction sp as [|c sp IH]; [reflexivity|].
    cbn in Fs. apply andb_true_iff in Fs. destruct Fs as [Wc Fs].
    cbn [filter]. unfold not_space at 1. rewrite Wc. cbn [negb]. auto. }
  rewrite E. unfold test, exec. cbn -[class_match toLowerCase].
  rewrite Ff', rank_class, Rr. eexists. split; [reflexivity|].
  cbn. rewrite (file_any_class f Ff'), (rank_lower r Rr), Rr. reflexivity.
Qed.

(** The squares of a move from the tokens after "move". *)
Lemma parse_tokens_result t from to :
  parse_tokens t = Some (Move from to) ->
  (canonical_square from = true \/ inherited_square from)
  /\ (canonical_square to = true \/ inherited_square to).
Proof.
  unfold parse_tokens. destruct (indexOf _ _); [|discriminate].
  destruct (Nat.leb _ _); [|discriminate].
  intros H. apply move_of_result in H. destruct H as [H1 H2].
  split; eapply normalizeSquare_result; eauto.
Qed.

(** C10 as far as it holds.  The squares of a move that
    [parseVoiceCommand] returns are canonical, unless the move comes from
    the tokens after "move" and the rank word of one of them is a name that
    [rankMap] inherits from [Object.prototype]. *)
Theorem move_squares_canonical (text from to : jsstring) :
  parseVoiceCommand text = Some (Move from to) ->
  (canonical_square from = true /\ canonical_square to = true)
  \/ (parse_tokens (trim text) = Some (Move from to)
      /\ (inherited_square from \/ inherited_square to)).
Proof.
  assert (T : parse_tokens (trim text) = Some (Move from to) ->
            (canonical_square from = true /\ canonical_square to = true)
            \/ (parse_tokens (trim text) = Some (Move from to)
                /\ (inherited_square from \/ inherited_square to))).
  { intros H. destruct (parse_tokens_result _ _ _ H) as [H1 H2].
    destruct H1 as [H1 | H1]; [|right; split; [exact H | left; exact H1]].
    destruct H2 as [H2 | H2]; [left; split; assumption|].
    right; split; [exact H | right; exact H2]. }
  unfold parseVoiceCommand. cbn zeta.
  destruct (exec false re_uci _) as [m|] eqn:E.
  - apply uci_shape in E.
    destruct E as (f1 & r1 & f2 & r2 & p & _ & F1 & R1 & F2 & R2 & _ & G1 & G2).
    intros H. inversion H. rewrite G1, G2. cbn. rewrite F1, R1, F2, R2. auto.
  - destruct (test true re_newgame _); [discriminate|].
    destruct (test true re_undo _); [discriminate|].
    destruct (test true re_castle _).
    { destruct (test true re_queen _); discriminate. }
    unfold parse_simple.
    destruct (exec true re_simple _) as [m|] eqn:E2; [|exact T].
    apply simple_groups in E2. destruct E2 as [S1 S3].
    apply normalize_said in S1, S3.
    destruct S1 as (s1 & -> & C1), S3 as (s3 & -> & C3).
    destruct s1 as [|a1 s1]; [discriminate|].
    destruct s3 as [|a3 s3]; [discriminate|].
    cbn [move_of truthy andb]. intros H. inversion H; subst. auto.
Qed.

(** * Properties of the controller *)

(** C2.  A mounted controller on a supported browser that sees a click on
    the microphone, the start of the round, the utterance "e2 to e4" and the
    end of the round is still [listening] with its intent set, has called
    [onMove] once, with e2 and e4, and no other callback of the game, and
    has ended by asking the recognizer to start again, whether [onMove]
    returns or throws. *)
Theorem C2_round_restarts (called : outcome) :
  let (st, out) :=
    run [Mount true; Toggle; OnStart; OnResult (str "e2 to e4") called; OnEnd]
      initial in
  status st = listening
  /\ isListeningActive st = true
  /\ filter is_game_callback out = [OnMove (str "e2") (str "e4")]
  /\ last out ConsoleError = RecognitionStart.
Proof.
  assert (E : parseVoiceCommand (str "e2 to e4")
              = Some (Move (str "e2") (str "e4"))) by (vm_compute; reflexivity).
  unfold run, handle, onresult. rewrite E.
  destruct called; cbn; repeat split.
Qed.

(** C6.  An utterance that does not parse makes the controller say
    "Invalid format.", call no callback of the game, and change nothing of
    its state but the last command, which becomes the transcript. *)
Theorem C6_parse_failure (st : state) (transcript : jsstring)
    (called : outcome) :
  parseVoiceCommand transcript = None ->
  let (st', out) := onresult transcript called st in
  filter is_speech out = [Speak (str "Invalid format.")]
  /\ filter is_game_callback out = []
  /\ status st' = status st
  /\ isListeningActive st' = isListeningActive st
  /\ st' = setLastCommand transcript st
  /\ lastCommand st' = transcript.
Proof.
  intros H. unfold onresult. rewrite H. cbn. repeat split.
Qed.

(** C7.  An utterance that parses to a castling command makes the
    controller call no callback of the game and say nothing; the status and
    the listening intent stay as they are. *)
Theorem C7_castle_not_wired (st : state) (transcript : jsstring) (sd : side)
    (called : outcome) :
  parseVoiceCommand transcript = Some (Castle sd) ->
  let (st', out) := onresult transcript called st in
  filter is_game_callback out = []
  /\ filter is_speech out = []
  /\ status st' = status st
  /\ isListeningActive st' = isListeningActive st.
Proof.
  intros H. unfold onresult. rewrite H. cbn. repeat split.
Qed.

(** C5.  An error of the recognizer while the session is listening: the
    code "no-speech" sets the status to [ready] and nothing is said; any
    other code sets it to [error] and "An error occurred." is said. *)
Theorem C5_recognition_error (st : state) (code : jsstring) :
  status st = listening ->
  let (st', out) := onerror code st in
  (code = str "no-speech" ->
     status st' = ready /\ filter is_speech out = [])
  /\ (code <> str "no-speech" ->
        status st' = error
        /\ filter is_speech out = [Speak (str "An error occurred.")]).
Proof.
  intros _. unfold onerror, jsstring_eqb.
  destruct (list_eq_dec ascii_dec code (str "no-speech")) as [E | E]; cbn;
    split; intros H; try contradiction; split; reflexivity.
Qed.


(** C6 at "banana". *)
Lemma C6_parse_failure_witness :
  parseVoiceCommand (str "banana") = None
  /\ let (st', out) :=
       onresult (str "banana") returns (mkState listening [] true true) in
     filter is_speech out = [Speak (str "Invalid format.")]
     /\ filter is_game_callback out = []
     /\ status st' = status (mkState listening [] true true)
     /\ isListeningActive st'
        = isListeningActive (mkState listening [] true true)
     /\ st' = setLastCommand (str "banana") (mkState listening [] true true)
     /\ lastCommand st' = str "banana".
Proof.
  split; [vm_compute; reflexivity |].
  apply (C6_parse_failure (mkState listening [] true true) (str "banana")
           returns).
  vm_compute; reflexivity.
Defined.

(** C7 at "castle queenside". *)
Lemma C7_castle_not_wired_witness :
  parseVoiceCommand (str "castle queenside") = Some (Castle queenside)
  /\ let (st', out) :=
       onresult (str "castle queenside") returns
         (mkState listening [] true true) in
     filter is_game_callback out = []
     /\ filter is_speech out = []
     /\ status st' = status (mkState listening [] true true)
     /\ isListeningActive st'
        = isListeningActive (mkState listening [] true true).
Proof.
  split; [vm_compute; reflexivity |].
  apply (C7_castle_not_wired (mkState listening [] true true)
           (str "castle queenside") queenside returns).
  vm_compute; reflexivity.
Defined.

(** C5 at the error code "network". *)
Lemma C5_recognition_error_witness :
  status (mkState listening [] true true) = listening
  /\ let (st', out) := onerror (str "network") (mkState listening [] true true) in
     (str "network" = str "no-speech" ->
        status st' = ready /\ filter is_speech out = [])
     /\ (str "network" <> str "no-speech" ->
           status st' = error
           /\ filter is_speech out = [Speak (str "An error occurred.")]).
Proof.
  split; [reflexivity |].
  apply (C5_recognition_error (mkState listening [] true true) (str "network")).
  reflexivity.
Defined.



(** * Properties of the parser on given transcripts *)

(** C3 at "move e two e four": the tokens after "move" are "e" and "two",
    the token strategy gives them to [normalizeSquare] one by one, the
    single letter "e" is no square, and the transcript is not parsed; nor is
    "move e two e for".  [normalizeSquare] itself reads the letter and the
    rank word with white space between them, homophone included, and the
    transcript is parsed when each letter and its word form one token. *)
Theorem C3_separate_words_fail :
  parseVoiceCommand (str "move e two e four") = None
  /\ parseVoiceCommand (str "move e two e four")
     <> Some (Move (str "e2") (str "e4"))
  /\ parseVoiceCommand (str "move e two e for") = None
  /\ split_ws (trim (str "move e two e four"))
     = [str "move"; str "e"; str "two"; str "e"; str "four"]
  /\ normalizeSquare (str "e") = None
  /\ normalizeSquare (str "e two") = Some (str "e2")
  /\ normalizeSquare (str "e four") = Some (str "e4")
  /\ normalizeSquare (str "e for") = Some (str "e4")
  /\ parseVoiceCommand (str "move etwo efour")
     = Some (Move (str "e2") (str "e4"))
  /\ parseVoiceCommand (str "move etwo efor")
     = Some (Move (str "e2") (str "e4")).
Proof.
  split; [vm_compute; reflexivity |].
  split; [vm_compute; discriminate |].
  repeat split; vm_compute; reflexivity.
Qed.

(** C1 at "e too 2 e4", the compact move e2e4 with white space and the
    connector word "too" between its characters: the pattern of the
    connector words takes "to" out of "too" and leaves an "o", the cleaned
    text is "eo2e4", and the transcript is not parsed. *)
Theorem C1_too_leaves_o :
  interspersed connectors (str "e2e4") (str "e too 2 e4")
  /\ clean_of (trim (str "e too 2 e4")) = str "eo2e4"
  /\ parseVoiceCommand (str "e too 2 e4") = None.
Proof.
  split.
  - change (str "e too 2 e4")
      with ([] ++ "e"%char :: (" "%char :: str "too" ++ [" "%char])
               ++ "2"%char :: [" "%char] ++ "e"%char :: [] ++ "4"%char :: []).
    repeat first
      [ apply inter_char | apply inter_end | apply filler_nil
      | apply filler_space; [reflexivity |]
      | apply filler_word; [cbn; tauto |] ].
  - split; vm_compute; reflexivity.
Qed.

(** C10 at "move econstructor e4": the rank word "constructor" is found in
    [rankMap] through [Object.prototype], and the move that is returned
    starts from a text that is not a square.  The same happens at
    "move e__proto__ e4". *)
Theorem C10_inherited_rank_word :
  parseVoiceCommand (str "move econstructor e4")
  = Some (Move (str "efunction Object() { [native code] }") (str "e4"))
  /\ canonical_square (str "efunction Object() { [native code] }") = false
  /\ parseVoiceCommand (str "move e__proto__ e4")
     = Some (Move (str "e[object Object]") (str "e4"))
  /\ canonical_square (str "e[object Object]") = false.
Proof.
  repeat split; vm_compute; reflexivity.
Qed.

(** C4, as the specification has it: "reset" occurs in "preset" and "undo"
    in "rundown" only inside a longer word, no other strategy matches these
    transcripts, and still the first is parsed to [NewGame] and the second
    to [Undo]. *)
Lemma C4_inside_longer_words :
  (whole_word (str "reset") (str "preset") = false
   /\ exec false re_uci (clean_of (str "preset")) = None
   /\ test true re_castle (str "preset") = false
   /\ parse_simple (str "preset") = None
   /\ parseVoiceCommand (str "preset") = Some NewGame)
  /\ (whole_word (str "undo") (str "rundown") = false
      /\ exec false re_uci (clean_of (str "rundown")) = None
      /\ test true re_castle (str "rundown") = false
      /\ parse_simple (str "rundown") = None
      /\ parseVoiceCommand (str "rundown") = Some Undo).
Proof.
  repeat split; vm_compute; reflexivity.
Qed.

(** * More about the parser *)

(** ** White space *)

Lemma filter_trimStart s : filter not_space (trimStart s) = filter not_space s.
Proof.
  induction s as [|c s IH]; [reflexivity|]. cbn [trimStart].
  destruct (isWhiteSpace c) eqn:W; [|reflexivity].
  rewrite IH. cbn [filter]. unfold not_space at 2. rewrite W. reflexivity.
Qed.

Lemma filter_trim s : filter not_space (trim s) = filter not_space s.
Proof.
  unfold trim, trimEnd.
  rewrite filter_rev, filter_trimStart, <- filter_rev, rev_involutive.
  apply filter_trimStart.
Qed.

Lemma filter_twice {T} (f : T -> bool) l : filter f (filter f l) = filter f l.
Proof.
  induction l as [|c l IH]; [reflexivity|]. cbn.
  destruct (f c) eqn:E; cbn; rewrite ?E, IH; reflexivity.
Qed.

(** X3.  [normalizeSquare] does not see white space: it gives for a text what
    it gives for the text without its white space, wherever the white space
    stands. *)
Theorem normalizeSquare_ignores_white_space (input : jsstring) :
  normalizeSquare input = normalizeSquare (filter not_space input).
Proof.
  unfold normalizeSquare. cbn zeta.
  rewrite !remove_spaces, !filter_trim, filter_twice. reflexivity.
Qed.

(** X4.  A file letter in either case and a rank digit are the square with the
    lower-case letter. *)
Theorem normalizeSquare_digit_square (f r : ascii) :
  class_match false file_any f = true -> is_rank r = true ->
  normalizeSquare [f; r] = Some [toLowerCaseChar f; r].
Proof.
  intros F R. apply is_rank_In in R.
  assert (H : forallb (fun r => match normalizeSquare [f; r] with
                                | Some s => jsstring_eqb s [toLowerCaseChar f; r]
                                | None => false
                                end) ranks = true).
  { revert F. ascii_cases f; intros F; try discriminate F;
      vm_compute; reflexivity. }
  rewrite forallb_forall in H. specialize (H r R).
  destruct (normalizeSquare [f; r]); [|discriminate].
  apply jsstring_eqb_eq in H. rewrite H. reflexivity.
Qed.

(** [normalizeSquare_digit_square] at E2. *)
Lemma normalizeSquare_digit_square_witness :
  class_match false file_any "E" = true /\ is_rank "2" = true
  /\ normalizeSquare ["E"; "2"] = Some [toLowerCaseChar "E"; "2"].
Proof.
  split; [reflexivity |]. split; [reflexivity |].
  apply (normalizeSquare_digit_square "E" "2"); reflexivity.
Defined.

(** X5.  A lower-case file letter and a rank word of [rankMap] are the square
    with the digit of the word; with the upper-case letter they are no
    square, since [fileMap] has the lower-case letters only. *)
Theorem normalizeSquare_rank_word (f : ascii) (word digit : jsstring) :
  is_file f = true -> In (word, digit) rankMap ->
  normalizeSquare (f :: word) = Some (f :: digit)
  /\ normalizeSquare (canonicalize f :: word) = None.
Proof.
  intros F W. apply is_file_In in F.
  assert (H : forallb (fun f => forallb (fun wd =>
                match normalizeSquare (f :: fst wd) with
                | Some s => jsstring_eqb s (f :: snd wd)
                | None => false
                end
                && is_none (normalizeSquare (canonicalize f :: fst wd)))
              rankMap) files = true) by (vm_compute; reflexivity).
  rewrite forallb_forall in H. specialize (H f F).
  rewrite forallb_forall in H. specialize (H (word, digit) W).
  cbn [fst snd] in H. apply andb_true_iff in H. destruct H as [H1 H2].
  split; [|apply is_none_eq; exact H2].
  destruct (normalizeSquare (f :: word)); [|discriminate].
  apply jsstring_eqb_eq in H1. rewrite H1. reflexivity.
Qed.

(** [normalizeSquare_rank_word] at e and four. *)
Lemma normalizeSquare_rank_word_witness :
  is_file "e" = true /\ In (str "four", str "4") rankMap
  /\ normalizeSquare ("e" :: str "four") = Some ("e" :: str "4")
  /\ normalizeSquare (canonicalize "e" :: str "four") = None.
Proof.
  assert (I : In (str "four", str "4") rankMap).
  { right. right. right. left. reflexivity. }
  split; [reflexivity |]. split; [exact I |].
  apply (normalizeSquare_rank_word "e" (str "four") (str "4")).
  - reflexivity.
  - exact I.
Defined.

Lemma trimStart_blank s : forallb isWhiteSpace s = true -> trimStart s = [].
Proof.
  induction s as [|c s IH]; [reflexivity|]. cbn.
  destruct (isWhiteSpace c); [exact IH | discriminate].
Qed.

Lemma trimStart_lead lead s :
  forallb isWhiteSpace lead = true -> trimStart (lead ++ s) = trimStart s.
Proof.
  intros H. rewrite trimStart_app, (trimStart_blank lead H). reflexivity.
Qed.

Lemma trimEnd_trail s trail :
  forallb isWhiteSpace trail = true -> trimEnd (s ++ trail) = trimEnd s.
Proof.
  intros H. unfold trimEnd. rewrite rev_app_distr, trimStart_lead; [reflexivity|].
  rewrite forallb_forall in *. intros c I. apply H. apply in_rev. exact I.
Qed.

Lemma trim_padded lead s trail :
  forallb isWhiteSpace lead = true -> forallb isWhiteSpace trail = true ->
  trim (lead ++ s ++ trail) = trim s.
Proof.
  intros Hl Ht. unfold trim. rewrite trimStart_lead by exact Hl.
  rewrite trimStart_app. destruct (trimStart s) as [|c u] eqn:E.
  - rewrite (trimStart_blank trail Ht). reflexivity.
  - apply trimEnd_trail. exact Ht.
Qed.

(** X6.  White space around a transcript does not change its command, and a
    transcript of white space only, or empty, is no command. *)
Theorem parse_ignores_outer_space (lead text trail : jsstring) :
  forallb isWhiteSpace lead = true -> forallb isWhiteSpace trail = true ->
  parseVoiceCommand (lead ++ text ++ trail) = parseVoiceCommand text
  /\ parseVoiceCommand lead = None.
Proof.
  intros Hl Ht.
  assert (P : forall a b, trim a = trim b ->
                          parseVoiceCommand a = parseVoiceCommand b).
  { intros a b E. unfold parseVoiceCommand. rewrite E. reflexivity. }
  split.
  - apply P. apply trim_padded; assumption.
  - rewrite (P lead []); [vm_compute; reflexivity|].
    unfold trim. rewrite (trimStart_blank lead Hl). reflexivity.
Qed.

(** [parse_ignores_outer_space] at "e2 to e4" between a tab and a line
    feed. *)
Lemma parse_ignores_outer_space_witness :
  forallb isWhiteSpace ["009"] = true /\ forallb isWhiteSpace ["010"] = true
  /\ parseVoiceCommand (["009"] ++ str "e2 to e4" ++ ["010"])
     = parseVoiceCommand (str "e2 to e4")
  /\ parseVoiceCommand ["009"] = None.
Proof.
  split; [reflexivity |]. split; [reflexivity |].
  apply (parse_ignores_outer_space ["009"] (str "e2 to e4") ["010"]);
    reflexivity.
Defined.

(** ** Castling *)

Lemma castle_lang x :
  lang true re_castle x <-> eq_ci x (str "castle") \/ eq_ci x (str "castling").
Proof. unfold re_castle. cbn [lang]. rewrite !lit_lang_ci. reflexivity. Qed.

Lemma queen_lang x :
  lang true re_queen x <-> eq_ci x (str "queen") \/ eq_ci x (str "long").
Proof. unfold re_queen. cbn [lang]. rewrite !lit_lang_ci. reflexivity. Qed.

(** A text of a castling keyword starts and ends with a letter, and
    castle and castling hold a foreign letter. *)
Lemma castle_text x :
  lang true re_castle x ->
  (exists a x', x = a :: x' /\ isWhiteSpace a = false)
  /\ (exists y z, x = y ++ [z] /\ isWhiteSpace z = false)
  /\ (exists c, In c x /\ foreign c = true).
Proof.
  rewrite castle_lang. intros [H | H]; split_ci H; repeat split.
  - eexists _, _. split; [reflexivity|]. eapply letter_not_space; eauto.
  - exists [c; c0; c1; c2; c3], c4. split; [reflexivity|].
    eapply letter_not_space; eauto.
  - exists c1. split; [cbn; auto|]. eapply foreign_letter; eauto. cbn. auto.
  - eexists _, _. split; [reflexivity|]. eapply letter_not_space; eauto.
  - exists [c; c0; c1; c2; c3; c4; c5], c6. split; [reflexivity|].
    eapply letter_not_space; eauto.
  - exists c1. split; [cbn; auto|]. eapply foreign_letter; eauto. cbn. auto.
Qed.

Lemma queen_text x :
  lang true re_queen x ->
  (exists a x', x = a :: x' /\ isWhiteSpace a = false)
  /\ (exists y z, x = y ++ [z] /\ isWhiteSpace z = false).
Proof.
  rewrite queen_lang. intros [H | H]; split_ci H; split.
  - eexists _, _. split; [reflexivity|]. eapply letter_not_space; eauto.
  - exists [c; c0; c1; c2], c3. split; [reflexivity|].
    eapply letter_not_space; eauto.
  - eexists _, _. split; [reflexivity|]. eapply letter_not_space; eauto.
  - exists [c; c0; c1], c2. split; [reflexivity|].
    eapply letter_not_space; eauto.
Qed.

Lemma queen_test_spec s :
  test true re_queen s = true
  <-> occurs (str "queen") s \/ occurs (str "long") s.
Proof.
  rewrite test_spec by reflexivity. unfold occurs. split.
  - intros (pre & x & post & E & L). apply queen_lang in L.
    destruct L as [L | L]; [left | right]; exists pre, x, post; auto.
  - intros [(pre & x & post & E & L) | (pre & x & post & E & L)];
      exists pre, x, post; split; auto; apply queen_lang; auto.
Qed.

Lemma castle_test text :
  test true re_castle (trim text) = true
  <-> occurs (str "castle") text \/ occurs (str "castling") text.
Proof.
  rewrite <- castle_test_spec. rewrite !test_spec by reflexivity.
  apply occurs_trim; intros x L; apply castle_text; auto.
Qed.

Lemma queen_test text :
  test true re_queen (trim text) = true
  <-> occurs (str "queen") text \/ occurs (str "long") text.
Proof.
  rewrite <- queen_test_spec. rewrite !test_spec by reflexivity.
  apply occurs_trim; intros x L; apply queen_text; auto.
Qed.

Lemma castle_not_uci t :
  test true re_castle t = true -> exec false re_uci (clean_of t) = None.
Proof.
  intros H. apply test_spec in H; [|reflexivity].
  destruct H as (pre & x & post & -> & L).
  apply castle_text in L. destruct L as (_ & _ & c & I & F).
  apply (foreign_not_uci c); auto.
  apply in_or_app. right. apply in_or_app. left. exact I.
Qed.

(** X7.  The parser returns a castling command exactly when the transcript
    contains castle or castling, in any case and also inside a longer word,
    and none of the life-cycle keywords; the side is the queen's exactly
    when the transcript contains queen or long, and the king's
    otherwise. *)
Theorem castle_commands (text : jsstring) (sd : side) :
  parseVoiceCommand text = Some (Castle sd)
  <-> ~ (occurs2 (str "new") (str "game") text \/ occurs (str "reset") text)
      /\ ~ (occurs (str "undo") text \/ occurs2 (str "take") (str "back") text)
      /\ (occurs (str "castle") text \/ occurs (str "castling") text)
      /\ (sd = queenside
          <-> occurs (str "queen") text \/ occurs (str "long") text).
Proof.
  rewrite <- newgame_test, <- undo_test, <- castle_test, <- queen_test.
  unfold parseVoiceCommand. cbn zeta.
  pose proof (keyword_not_uci (trim text)) as U.
  pose proof (castle_not_uci (trim text)) as V.
  destruct (test true re_newgame (trim text)) eqn:N.
  { rewrite U by auto. split; [discriminate|]. intros [H _]. contradiction H.
    reflexivity. }
  destruct (test true re_undo (trim text)) eqn:D.
  { rewrite U by auto. split; [discriminate|]. intros (_ & H & _).
    contradiction H. reflexivity. }
  destruct (test true re_castle (trim text)) eqn:C.
  - rewrite V by reflexivity.
    destruct (test true re_queen (trim text)) eqn:Q.
    + split.
      * intros H. inversion H. repeat split; auto; discriminate.
      * intros (_ & _ & _ & H). destruct H as [_ H]. rewrite H; reflexivity.
    + split.
      * intros H. inversion H. repeat split; auto; discriminate.
      * intros (_ & _ & _ & H). destruct sd; [reflexivity|].
        destruct H as [H _]. discriminate H. reflexivity.
  - split; [|intros (_ & _ & H & _); discriminate H].
    destruct (exec false re_uci _); [discriminate|].
    intros H. apply parse_simple_is_move in H. destruct H as (f & t & H).
    discriminate H.
Qed.

(** ** Moves need a digit or the word move *)

Lemma replace_go_sub ci r c : forall s skip b,
  In c (replace_go ci r skip b s) -> In c s.
Proof.
  induction s as [|d s IH]; intros skip b; [intros []|].
  cbn [replace_go]. destruct skip as [|n].
  - destruct (match_at ci r b (d :: s)) as [m|].
    + destruct (length (matched m)).
      * intros [H | H]; [left; exact H | right; eapply IH; exact H].
      * intros H. right. eapply IH; exact H.
    + intros [H | H]; [left; exact H | right; eapply IH; exact H].
  - intros H. right. eapply IH; exact H.
Qed.

Lemma rank_of_lower c : is_rank (toLowerCaseChar c) = true -> toLowerCaseChar c = c.
Proof. ascii_cases c; intros H; try discriminate H; reflexivity. Qed.

Lemma clean_of_rank r t : is_rank r = true -> In r (clean_of t) -> In r t.
Proof.
  intros R I. unfold clean_of, remove_all in I.
  apply replace_go_sub in I. apply replace_go_sub in I.
  unfold toLowerCase in I. apply in_map_iff in I. destruct I as (c & E & I).
  subst r. rewrite (rank_of_lower c R) in *. exact I.
Qed.

Lemma simple_has_rank x :
  lang true re_simple x -> exists r, In r x /\ is_rank r = true.
Proof.
  unfold re_simple. cbn -[class_match char_match].
  intros (x1 & x2 & -> & _ & (y1 & y2 & -> & _ & (c & -> & R))).
  exists c. rewrite rank_class_ci in R. split; [|exact R].
  apply in_or_app. right. apply in_or_app. right. left. reflexivity.
Qed.

Lemma indexOf_In a x i : indexOf a x = Some i -> In x a.
Proof.
  revert i. induction a as [|y a IH]; intros i; [discriminate|].
  cbn. destruct (jsstring_eqb y x) eqn:E.
  - intros _. left. apply jsstring_eqb_eq. exact E.
  - destruct (indexOf a x); [|discriminate]. intros _. right. eapply IH.
    reflexivity.
Qed.

Lemma In_existsb_rank r s : In r s -> is_rank r = true -> existsb is_rank s = true.
Proof. intros I R. apply existsb_exists. exists r. auto. Qed.

(** X8.  A transcript is a move only if it holds a rank digit or the token
    move: the squares said with rank words, as in "e two e four", are
    understood after the token move and nowhere else. *)
Theorem moves_need_digit_or_move (text from to : jsstring) :
  parseVoiceCommand text = Some (Move from to) ->
  existsb is_rank text = true \/ In (str "move") (split_ws (trim text)).
Proof.
  assert (T : forall r, In r (trim text) -> is_rank r = true ->
                        existsb is_rank text = true).
  { intros r I R. apply (In_existsb_rank r); [|exact R].
    destruct (trim_inside text) as (lead & trail & E). rewrite E.
    apply in_or_app. right. apply in_or_app. left. exact I. }
  unfold parseVoiceCommand. cbn zeta.
  destruct (exec false re_uci (clean_of (trim text))) as [m|] eqn:U.
  { intros _. left. apply uci_shape in U.
    destruct U as (f1 & r1 & f2 & r2 & pr & E & _ & R1 & _).
    apply (T r1); [|exact R1]. apply clean_of_rank; [exact R1|].
    rewrite E. right. left. reflexivity. }
  destruct (test true re_newgame (trim text)); [discriminate|].
  destruct (test true re_undo (trim text)); [discriminate|].
  destruct (test true re_castle (trim text)).
  { destruct (test true re_queen (trim text)); discriminate. }
  assert (K : parse_tokens (trim text) = Some (Move from to) ->
              In (str "move") (split_ws (trim text))).
  { unfold parse_tokens. destruct (indexOf _ _) as [i|] eqn:I; [|discriminate].
    intros _. eapply indexOf_In. exact I. }
  unfold parse_simple.
  destruct (exec true re_simple (trim text)) as [m|] eqn:S; [|auto].
  intros _. left.
  destruct (search_found true re_simple eq_refl (trim text) true)
    as (pre & x & post & E & L).
  { unfold exec in S. rewrite S. discriminate. }
  apply simple_has_rank in L. destruct L as (r & I & R).
  apply (T r); [|exact R]. rewrite E.
  apply in_or_app. right. apply in_or_app. left. exact I.
Qed.

(** [moves_need_digit_or_move] at "move etwo efour". *)
Lemma moves_need_digit_or_move_witness :
  parseVoiceCommand (str "move etwo efour") = Some (Move (str "e2") (str "e4"))
  /\ (existsb is_rank (str "move etwo efour") = true
      \/ In (str "move") (split_ws (trim (str "move etwo efour")))).
Proof.
  assert (P : parseVoiceCommand (str "move etwo efour")
              = Some (Move (str "e2") (str "e4"))) by (vm_compute; reflexivity).
  split; [exact P |].
  apply (moves_need_digit_or_move (str "move etwo efour") (str "e2") (str "e4")).
  exact P.
Defined.

(** ** Instances of the two general facts about moves *)

(** [compact_move_with_to_and_two] at "e2 to e4". *)
Lemma compact_move_with_to_and_two_witness :
  is_file "e" = true /\ is_rank "2" = true
  /\ is_file "e" = true /\ is_rank "4" = true
  /\ (@nil ascii = [] \/ (exists c, [] = [c] /\ is_promotion c = true))
  /\ interspersed [str "to"; str "two"] (["e"; "2"; "e"; "4"] ++ [])
       (str "e2 to e4")
  /\ parseVoiceCommand (str "e2 to e4") = Some (Move ["e"; "2"] ["e"; "4"]).
Proof.
  assert (I : interspersed [str "to"; str "two"] (["e"; "2"; "e"; "4"] ++ [])
                (str "e2 to e4")).
  { apply (inter_char _ [] "e" ["2"; "e"; "4"] (str "2 to e4")).
    { constructor. }
    apply (inter_char _ [] "2" ["e"; "4"] (str " to e4")).
    { constructor. }
    apply (inter_char _ (str " to ") "e" ["4"] (str "4")).
    { apply filler_space; [reflexivity|].
      apply (filler_word _ (str "to") [" "]); [left; reflexivity|].
      apply filler_space; [reflexivity|]. constructor. }
    apply (inter_char _ [] "4" [] []).
    { constructor. }
    constructor. constructor. }
  repeat (split; [reflexivity |]).
  split; [left; reflexivity |]. split; [exact I |].
  apply (compact_move_with_to_and_two "e" "2" "e" "4" [] (str "e2 to e4"));
    try reflexivity; [left; reflexivity | exact I].
Defined.

(** [move_squares_canonical] at "Knight G1 to F3". *)
Lemma move_squares_canonical_witness :
  parseVoiceCommand (str "Knight G1 to F3") = Some (Move (str "g1") (str "f3"))
  /\ ((canonical_square (str "g1") = true /\ canonical_square (str "f3") = true)
      \/ (parse_tokens (trim (str "Knight G1 to F3"))
          = Some (Move (str "g1") (str "f3"))
          /\ (inherited_square (str "g1") \/ inherited_square (str "f3")))).
Proof.
  assert (P : parseVoiceCommand (str "Knight G1 to F3")
              = Some (Move (str "g1") (str "f3"))) by (vm_compute; reflexivity).
  split; [exact P |].
  apply (move_squares_canonical (str "Knight G1 to F3") (str "g1") (str "f3")).
  exact P.
Defined.

(** * Properties of the session, event by event *)

(** X9.  On a browser without speech recognition the status becomes
    [unsupported] at mount, and nothing happens after that: whatever the
    number of clicks on the microphone, and at unmount, the state stays as
    it is and no effect is performed. *)
Theorem unsupported_is_final (n : nat) :
  run (Mount false :: repeat Toggle n ++ [Unmount]) initial
  = (setStatus unsupported initial, []).
Proof.
  cbn [run handle mount].
  assert (H : run (repeat Toggle n ++ [Unmount]) (setStatus unsupported initial)
              = (setStatus unsupported initial, [])).
  { induction n as [|n IH]; [reflexivity|].
    cbn [repeat app run handle].
    change (handleToggle returns (setStatus unsupported initial))
      with (setStatus unsupported initial, @nil effect).
    cbv iota beta. rewrite IH. reflexivity. }
  cbv iota beta. rewrite H. reflexivity.
Qed.

Lemma status_of_handle e st :
  In (status st) [idle; ready; listening; error; unsupported] ->
  In (status (fst (handle e st))) [idle; ready; listening; error; unsupported].
Proof.
  intros H. destruct st as [s l a r]. cbn in H.
  destruct e as [[|] | | | | | | t o | c]; cbn.
  - auto.
  - auto 6.
  - destruct r; exact H.
  - unfold handleToggle. cbn. destruct s; cbn; auto 6.
  - unfold handleToggle. cbn. destruct s; cbn; auto 6.
  - auto.
  - unfold onend. cbn. destruct a; cbn; auto.
  - exact H.
  - unfold onerror. destruct (jsstring_eqb _ _); cbn; auto 6.
Qed.

Lemma run_cons e es st :
  run (e :: es) st
  = (fst (run es (fst (handle e st))),
     snd (handle e st) ++ snd (run es (fst (handle e st)))).
Proof.
  cbn [run]. destruct (handle e st) as [st1 out1]. cbn [fst snd].
  destruct (run es st1) as [st2 out2]. reflexivity.
Qed.

(** X10.  The status [processing] is declared and never set: whatever the
    events, the status of a session is one of [idle], [ready], [listening],
    [error] and [unsupported]. *)
Theorem status_never_processing (es : list event) :
  In (status (fst (run es initial))) [idle; ready; listening; error; unsupported].
Proof.
  assert (G : forall st,
    In (status st) [idle; ready; listening; error; unsupported] ->
    In (status (fst (run es st))) [idle; ready; listening; error; unsupported]).
  { induction es as [|e es IH]; intros st H; [exact H|].
    rewrite run_cons. cbn [fst]. apply IH. apply status_of_handle. exact H. }
  apply G. cbn. auto.
Qed.

Lemma intent_of_handle e st :
  is_toggle e = false ->
  isListeningActive (fst (handle e st)) = isListeningActive st.
Proof.
  intros H. destruct st as [s l a r].
  destruct e as [[|] | | | | | | t o | c]; try discriminate; cbn;
    try reflexivity.
  - unfold onend. cbn. destruct a; reflexivity.
  - unfold onerror. destruct (jsstring_eqb _ _); reflexivity.
Qed.

Lemma starts_of_handle e st :
  is_toggle e = false ->
  length (filter is_start (snd (handle e st)))
  = if isListeningActive st && is_end e then 1 else 0.
Proof.
  intros H. destruct st as [s l a r].
  destruct e as [[|] | | | | | | t o | c]; try discriminate;
    cbn [handle is_end]; rewrite ?andb_false_r; try reflexivity.
  - cbn. destruct r; reflexivity.
  - unfold onend. cbn. destruct a; reflexivity.
  - unfold onresult. cbn [snd filter is_start].
    destruct (parseVoiceCommand t) as [[f t' | | | sd]|]; try reflexivity;
      destruct o; reflexivity.
  - unfold onerror. destruct (jsstring_eqb _ _); reflexivity.
Qed.

(** X11.  Between two clicks on the microphone the listening intent does not
    change, whatever the recognizer reports, and the recognizer is asked to
    start once for every end of a round while the intent is set, and never
    while it is not. *)
Theorem restart_at_every_end (es : list event) (st : state) :
  existsb is_toggle es = false ->
  isListeningActive (fst (run es st)) = isListeningActive st
  /\ length (filter is_start (snd (run es st)))
     = if isListeningActive st then length (filter is_end es) else 0.
Proof.
  revert st. induction es as [|e es IH]; intros st H.
  - cbn. destruct (isListeningActive st); auto.
  - cbn [existsb] in H. apply orb_false_iff in H. destruct H as [He Hes].
    rewrite run_cons. cbn [fst snd].
    destruct (IH (fst (handle e st)) Hes) as [I1 I2].
    rewrite intent_of_handle in I1, I2 by exact He.
    split; [exact I1|].
    rewrite filter_app, length_app, I2, starts_of_handle by exact He.
    cbn [filter]. destruct (isListeningActive st), (is_end e); reflexivity.
Qed.

(** [restart_at_every_end] at a session that listens and sees an error, an
    end, a start, an utterance and an end. *)
Lemma restart_at_every_end_witness :
  existsb is_toggle
    [OnError (str "network"); OnEnd; OnStart;
     OnResult (str "banana") returns; OnEnd] = false
  /\ isListeningActive
       (fst (run [OnError (str "network"); OnEnd; OnStart;
                  OnResult (str "banana") returns; OnEnd]
               (mkState listening [] true true)))
     = isListeningActive (mkState listening [] true true)
  /\ length (filter is_start
       (snd (run [OnError (str "network"); OnEnd; OnStart;
                  OnResult (str "banana") returns; OnEnd]
               (mkState listening [] true true))))
     = if isListeningActive (mkState listening [] true true)
       then length (filter is_end
              [OnError (str "network"); OnEnd; OnStart;
               OnResult (str "banana") returns; OnEnd])
       else 0.
Proof.
  split; [reflexivity |].
  apply (restart_at_every_end
           [OnError (str "network"); OnEnd; OnStart;
            OnResult (str "banana") returns; OnEnd]
           (mkState listening [] true true)).
  reflexivity.
Defined.

(** X12.  A click while the session listens, followed by the end of the round:
    the recognizer is asked to stop and not asked to start again, the
    listening intent is cleared and the status is [ready]. *)
Theorem stop_then_end (st : state) :
  status st = listening -> recognitionRef st = true ->
  let (st', out) := run [Toggle; OnEnd] st in
  out = [RecognitionStop]
  /\ isListeningActive st' = false
  /\ status st' = ready.
Proof.
  intros H R. destruct st as [s l a r]. cbn in H, R. subst s r.
  cbn. repeat split.
Qed.

(** [stop_then_end] at a session that listens. *)
Lemma stop_then_end_witness :
  status (mkState listening [] true true) = listening
  /\ recognitionRef (mkState listening [] true true) = true
  /\ let (st', out) := run [Toggle; OnEnd] (mkState listening [] true true) in
     out = [RecognitionStop]
     /\ isListeningActive st' = false
     /\ status st' = ready.
Proof.
  split; [reflexivity |]. split; [reflexivity |].
  apply (stop_then_end (mkState listening [] true true)); reflexivity.
Defined.

(** X13.  An error of the recognizer does not end the session: while the
    listening intent is set, the end of the round that follows the error
    asks the recognizer to start again, and with its start the status is
    [listening] again, whatever the error was. *)
Theorem error_then_restart (st : state) (code : jsstring) :
  isListeningActive st = true ->
  let (st', out) := run [OnError code; OnEnd; OnStart] st in
  last out ConsoleError = RecognitionStart
  /\ status st' = listening
  /\ isListeningActive st' = true.
Proof.
  intros H. destruct st as [s l a r]. cbn in H. subst a.
  cbn [run handle]. unfold onerror.
  destruct (jsstring_eqb code (str "no-speech")); cbn; repeat split.
Qed.

(** [error_then_restart] at the error code "network". *)
Lemma error_then_restart_witness :
  isListeningActive (mkState listening [] true true) = true
  /\ let (st', out) :=
       run [OnError (str "network"); OnEnd; OnStart]
         (mkState listening [] true true) in
     last out ConsoleError = RecognitionStart
     /\ status st' = listening
     /\ isListeningActive st' = true.
Proof.
  split; [reflexivity |].
  apply (error_then_restart (mkState listening [] true true) (str "network")).
  reflexivity.
Defined.


(** * Properties of the board *)

Lemma distinct_NoDup l : Chessmen.distinct l = true -> NoDup l.
Proof.
  induction l as [|x l IH]; cbn; intros H; constructor;
    apply andb_true_iff in H; destruct H as [H1 H2]; auto.
  intros I. apply negb_true_iff in H1.
  assert (existsb (jsstring_eqb x) l = true); [|congruence].
  apply existsb_exists. exists x. split; [exact I|].
  unfold jsstring_eqb. destruct (list_eq_dec ascii_dec x x); congruence.
Qed.

(** X15.  The board has 64 squares; their coordinates are all different, and
    they are the canonical squares, the ones the parser returns: a
    lower-case file letter from a to h and a rank digit from 1 to 8.  The
    first one is a8 and the last one h1. *)
Theorem board_squares :
  length Board.squares = 64
  /\ NoDup (map Board.coord Board.squares)
  /\ (forall s, In s (map Board.coord Board.squares)
                <-> canonical_square s = true)
  /\ hd_error (map Board.coord Board.squares) = Some (str "a8")
  /\ last (map Board.coord Board.squares) [] = str "h1".
Proof.
  split; [reflexivity|]. split.
  { apply distinct_NoDup. vm_compute. reflexivity. }
  split; [|split; reflexivity].
  intros s. split.
  - assert (H : forallb canonical_square (map Board.coord Board.squares) = true)
      by (vm_compute; reflexivity).
    rewrite forallb_forall in H. apply H.
  - destruct s as [|f [|r [|x s]]]; try discriminate. cbn.
    intros H. apply andb_true_iff in H. destruct H as [F R].
    apply is_file_In in F. apply is_rank_In in R.
    assert (H : forallb (fun f => forallb (fun r =>
                  existsb (jsstring_eqb [f; r]) (map Board.coord Board.squares))
                  ranks) files = true) by (vm_compute; reflexivity).
    rewrite forallb_forall in H. specialize (H f F).
    rewrite forallb_forall in H. specialize (H r R).
    apply existsb_exists in H. destruct H as (y & I & E).
    unfold jsstring_eqb in E. destruct (list_eq_dec ascii_dec [f; r] y);
      [subst y; exact I | discriminate].
Qed.

(** X16.  The colours of the board are those of a chess board: a square is dark
    exactly when the number of its file, counted from 1 for a, plus its rank
    is even, so that a1 is dark. *)
Theorem board_colours (sq : Board.Square) :
  In sq Board.squares ->
  Board.isDark sq
  = N.even (Chessmen.file_number (Board.file sq) + Board.rank sq).
Proof.
  revert sq. apply Forall_forall.
  repeat (constructor; [vm_compute; reflexivity|]). constructor.
Qed.

(** [board_colours] at a1, the first square of the last row. *)
Lemma board_colours_witness :
  In (Board.mkSquare (str "a") 1 (str "a1")) Board.squares
  /\ Board.isDark (Board.mkSquare (str "a") 1 (str "a1"))
     = N.even (Chessmen.file_number (Board.file (Board.mkSquare (str "a") 1 (str "a1")))
               + Board.rank (Board.mkSquare (str "a") 1 (str "a1"))).
Proof.
  assert (I : In (Board.mkSquare (str "a") 1 (str "a1")) Board.squares).
  { apply (nth_error_In _ 56). reflexivity. }
  split; [exact I |].
  apply (board_colours (Board.mkSquare (str "a") 1 (str "a1"))). exact I.
Defined.

Lemma assoc_pieceMap get c : forall keys map,
  Obj.assoc (fold_left (Board.pieceMap_step get) keys map) c
  = match (if existsb (fun k => jsstring_eqb k c) keys
           then option_map Board.symbol_of (get c) else None) with
    | Some v => Some v
    | None => Obj.assoc map c
    end.
Proof.
  induction keys as [|key keys IH]; intros map; [reflexivity|].
  cbn [fold_left existsb]. rewrite IH. unfold Board.pieceMap_step.
  unfold jsstring_eqb at 2.
  destruct (list_eq_dec ascii_dec key c) as [->|N]; cbn [orb].
  - destruct (existsb _ keys).
    + destruct (get c) as [pc|]; reflexivity.
    + destruct (get c) as [pc|]; cbn [Obj.assoc option_map]; [|reflexivity].
      unfold jsstring_eqb. destruct (list_eq_dec ascii_dec c c); congruence.
  - destruct (existsb _ keys).
    + destruct (option_map _ _); [reflexivity|].
      destruct (get key); cbn [Obj.assoc]; [|reflexivity].
      unfold jsstring_eqb. destruct (list_eq_dec ascii_dec key c); congruence.
    + destruct (get key); cbn [Obj.assoc]; [|reflexivity].
      unfold jsstring_eqb. destruct (list_eq_dec ascii_dec key c); congruence.
Qed.

(** X17.  The board shows the position of the engine: on every square the piece
    that [chess.get] gives for its coordinate, as the chess symbol of
    Unicode for that piece and colour, with the classes of its colour and of
    its type; and nothing on a square without a piece. *)
Theorem board_shows_position (get : jsstring -> option Board.Piece)
    (sq : Board.Square) :
  In sq Board.squares ->
  Board.square_content (Board.pieceMap get) sq
  = match get (Board.coord sq) with
    | Some piece =>
        Board.Shown
          (Board.mkSpan
             (str "piece piece-" ++ Chessmen.colour_name (Board.color piece)
              ++ str " piece-" ++ Board.type_text (Board.type piece))
             (Board.Glyph [Chessmen.glyph piece]))
    | None => Board.Empty
    end.
Proof.
  intros I. unfold Board.square_content, Obj.get, Board.pieceMap.
  rewrite assoc_pieceMap. cbn [Obj.assoc].
  assert (K : forallb (fun sq => existsb (fun k => jsstring_eqb k (Board.coord sq))
                                   Board.pieceMap_keys
                                 && is_none (Obj.assoc Obj.Object_prototype
                                               (Board.coord sq)))
                Board.squares = true) by (vm_compute; reflexivity).
  rewrite forallb_forall in K. specialize (K sq I).
  apply andb_true_iff in K. destruct K as [K1 K2]. rewrite K1.
  destruct (get (Board.coord sq)) as [[c t]|]; cbn [option_map].
  - destruct c, t; vm_compute; reflexivity.
  - destruct (Obj.assoc Obj.Object_prototype (Board.coord sq));
      [discriminate | reflexivity].
Qed.

(** [board_shows_position] at e1, for a position with a white king on e1
    and nothing else. *)
Lemma board_shows_position_witness :
  In (Board.mkSquare (str "e") 1 (str "e1")) Board.squares
  /\ Board.square_content
       (Board.pieceMap (fun sq => if jsstring_eqb sq (str "e1")
                                  then Some (Board.mkPiece Board.WHITE Board.KING)
                                  else None))
       (Board.mkSquare (str "e") 1 (str "e1"))
     = match (if jsstring_eqb (Board.coord (Board.mkSquare (str "e") 1 (str "e1")))
                              (str "e1")
              then Some (Board.mkPiece Board.WHITE Board.KING) else None) with
       | Some piece =>
           Board.Shown
             (Board.mkSpan
                (str "piece piece-" ++ Chessmen.colour_name (Board.color piece)
                 ++ str " piece-" ++ Board.type_text (Board.type piece))
                (Board.Glyph [Chessmen.glyph piece]))
       | None => Board.Empty
       end.
Proof.
  assert (I : In (Board.mkSquare (str "e") 1 (str "e1")) Board.squares).
  { apply (nth_error_In _ 60). reflexivity. }
  split; [exact I |].
  apply (board_shows_position
           (fun sq => if jsstring_eqb sq (str "e1")
                      then Some (Board.mkPiece Board.WHITE Board.KING) else None)
           (Board.mkSquare (str "e") 1 (str "e1"))).
  exact I.
Defined.

Lemma click_moves c sel from to :
  In (from, to) (snd (Board.handleSquareClick c sel)) ->
  from <> to /\ from <> [] /\ to = c.
Proof.
  unfold Board.handleSquareClick. destruct sel as [[|a s]|]; cbn; try tauto.
  unfold jsstring_eqb. destruct (list_eq_dec ascii_dec (a :: s) c) as [E|E];
    cbn; [tauto|].
  intros [H|[]]. inversion H; subst. repeat split; auto. discriminate.
Qed.

Lemma clicks_cons c cs sel :
  Board.clicks (c :: cs) sel
  = (fst (Board.clicks cs (fst (Board.handleSquareClick c sel))),
     snd (Board.handleSquareClick c sel)
     ++ snd (Board.clicks cs (fst (Board.handleSquareClick c sel)))).
Proof.
  cbn [Board.clicks]. destruct (Board.handleSquareClick c sel) as [s1 o1].
  cbn [fst snd]. destruct (Board.clicks cs s1) as [s2 o2]. reflexivity.
Qed.

(** X18.  The board never asks for a move from a square to itself: whatever the
    clicks and the selection they start from, every call of [onMove] has two
    different squares, and its target is one of the squares clicked. *)
Theorem board_moves_between_squares (cs : list jsstring)
    (selected : option jsstring) (from to : jsstring) :
  In (from, to) (snd (Board.clicks cs selected)) ->
  from <> to /\ In to cs.
Proof.
  revert selected. induction cs as [|c cs IH]; intros sel; [intros []|].
  rewrite clicks_cons. cbn [snd]. intros H. apply in_app_or in H.
  destruct H as [H|H].
  - apply click_moves in H. destruct H as (H1 & _ & ->). split; [exact H1|].
    left. reflexivity.
  - apply IH in H. destruct H as [H1 H2]. split; [exact H1|]. right. exact H2.
Qed.

(** [board_moves_between_squares] at the clicks e2, e4, g1, g1, d7, d5. *)
Lemma board_moves_between_squares_witness :
  In (str "d7", str "d5")
     (snd (Board.clicks [str "e2"; str "e4"; str "g1"; str "g1";
                         str "d7"; str "d5"] None))
  /\ str "d7" <> str "d5"
  /\ In (str "d5") [str "e2"; str "e4"; str "g1"; str "g1";
                    str "d7"; str "d5"].
Proof.
  assert (I : In (str "d7", str "d5")
                (snd (Board.clicks [str "e2"; str "e4"; str "g1"; str "g1";
                                    str "d7"; str "d5"] None))).
  { right. left. reflexivity. }
  split; [exact I |].
  apply (board_moves_between_squares
           [str "e2"; str "e4"; str "g1"; str "g1"; str "d7"; str "d5"]
           None (str "d7") (str "d5")).
  exact I.
Defined.

(** X19.  Clicks select moves two by two: when every move of a list goes from a
    square to another one, the clicks on its squares, one move after the
    other, call [onMove] with exactly these moves, in order, and leave
    nothing selected. *)
Theorem board_clicks_pair_up (ms : list (jsstring * jsstring)) :
  Forall (fun m => fst m <> [] /\ fst m <> snd m) ms ->
  Board.clicks (Chessmen.clicks_of ms) None = (None, ms).
Proof.
  induction 1 as [|[from to] ms [H1 H2] _ IH]; [reflexivity|].
  cbn in H1, H2. unfold Chessmen.clicks_of. cbn [flat_map fst snd app].
  fold (Chessmen.clicks_of ms).
  rewrite clicks_cons. cbn [Board.handleSquareClick fst snd app].
  rewrite clicks_cons. unfold Board.handleSquareClick.
  destruct from as [|a from]; [contradiction|]. cbn [truthy negb].
  unfold jsstring_eqb. destruct (list_eq_dec ascii_dec (a :: from) to);
    [contradiction|].
  cbn [fst snd app]. rewrite IH. reflexivity.
Qed.

(** [board_clicks_pair_up] at the moves e2 to e4 and e7 to e5. *)
Lemma board_clicks_pair_up_witness :
  Forall (fun m : jsstring * jsstring => fst m <> [] /\ fst m <> snd m)
         [(str "e2", str "e4"); (str "e7", str "e5")]
  /\ Board.clicks
       (Chessmen.clicks_of [(str "e2", str "e4"); (str "e7", str "e5")]) None
     = (None, [(str "e2", str "e4"); (str "e7", str "e5")]).
Proof.
  assert (F : Forall (fun m : jsstring * jsstring =>
                        fst m <> [] /\ fst m <> snd m)
                     [(str "e2", str "e4"); (str "e7", str "e5")]).
  { repeat constructor; cbn; discriminate. }
  split; [exact F |].
  apply (board_clicks_pair_up [(str "e2", str "e4"); (str "e7", str "e5")]).
  exact F.
Defined.

(** * Properties of the game page *)

Lemma safeUpdateGame_shows (E : Game.Chess) (st : Game.state E) :
  Shown.shows_engine (Game.safeUpdateGame st).
Proof. split; reflexivity. Qed.

(** X20.  The page keeps showing its engine: when the position and the list of
    moves on the page are those of the engine, they still are after a move
    asked by the board, accepted or not, after a move asked by voice,
    accepted or not, after an undo, after a new game, and after any
    utterance. *)
Theorem page_shows_engine (E : Game.Chess) (st : Game.state E)
    (c : Controller.state) (from to transcript : jsstring) :
  Shown.shows_engine st ->
  Shown.shows_engine (Game.handleSquareClick from to st)
  /\ Shown.shows_engine (fst (Game.handleVoiceMove from to st))
  /\ Shown.shows_engine (Game.handleUndo st)
  /\ Shown.shows_engine (fst (Game.handleNewGame (st, c)))
  /\ Shown.shows_engine (fst (fst (Game.onresult transcript (st, c)))).
Proof.
  intros H.
  assert (V : forall f t, Shown.shows_engine (fst (Game.handleVoiceMove f t st))).
  { intros f t. unfold Game.handleVoiceMove.
    destruct (Game.Chess_move E _ f t); [apply safeUpdateGame_shows | exact H]. }
  split; [|split; [apply V|split; [|split]]].
  - unfold Game.handleSquareClick.
    destruct (Game.Chess_move E _ from to); [apply safeUpdateGame_shows | exact H].
  - apply safeUpdateGame_shows.
  - apply safeUpdateGame_shows.
  - unfold Game.onresult, Controller.onresult. cbn [fst snd].
    destruct (parseVoiceCommand transcript) as [[f t | | | sd]|];
      destruct (Game.called transcript st);
      cbn [after fold_left Game.callback fst snd]; try exact H;
      try apply V; apply safeUpdateGame_shows.
Qed.

(** [page_shows_engine] at the first page of the recording engine. *)
Lemma page_shows_engine_witness :
  Shown.shows_engine (@Game.initial Game.recorder)
  /\ Shown.shows_engine
       (Game.handleSquareClick (str "e2") (str "e4") (@Game.initial Game.recorder))
  /\ Shown.shows_engine
       (fst (Game.handleVoiceMove (str "e2") (str "e4")
               (@Game.initial Game.recorder)))
  /\ Shown.shows_engine (Game.handleUndo (@Game.initial Game.recorder))
  /\ Shown.shows_engine
       (fst (Game.handleNewGame (@Game.initial Game.recorder, Controller.initial)))
  /\ Shown.shows_engine
       (fst (fst (Game.onresult (str "e2 to e4")
                    (@Game.initial Game.recorder, Controller.initial)))).
Proof.
  assert (S : Shown.shows_engine (@Game.initial Game.recorder)).
  { split; reflexivity. }
  split; [exact S |].
  apply (page_shows_engine Game.recorder (@Game.initial Game.recorder)
           Controller.initial (str "e2") (str "e4") (str "e2 to e4")).
  exact S.
Defined.

Lemma rows_from (j : nat) : forall (k : nat) (h : list jsstring),
  2 * k < length h ->
  nth_error (Game.rows (Game.format_from (2 * j) h)) k
  = Some (Game.mkRow (j + k + 1) (nth (2 * k) h []) (nth (2 * k + 1) h [])).
Proof.
  assert (D : forall j, (2 * j) / 2 = j /\ S (2 * j) / 2 = j).
  { intros i. split.
    - rewrite Nat.mul_comm. apply Nat.div_mul. discriminate.
    - symmetry. apply (Nat.div_unique (S (2 * i)) 2 i 1); lia. }
  intros k. revert j. induction k as [|k IH]; intros j h H.
  - destruct h as [|a [|b h]]; cbn [length] in H; [lia| |];
      cbn [Game.format_from Game.rows nth_error Game.san_or_empty
           Game.moveNumber Game.san];
      destruct (D j) as [D1 D2]; rewrite D1, Nat.add_0_r; reflexivity.
  - destruct h as [|a [|b h]]; cbn [length] in H; [lia|lia|].
    cbn [Game.format_from Game.rows nth_error].
    replace (S (S (2 * j))) with (2 * S j) by lia.
    rewrite IH by lia.
    replace (2 * S k) with (S (S (2 * k))) by lia.
    cbn [nth Nat.add]. repeat f_equal. lia.
Qed.

Lemma rows_length : forall (n : nat) (j : nat) (h : list jsstring),
  length h <= n ->
  length (Game.rows (Game.format_from j h)) = (length h + 1) / 2.
Proof.
  induction n as [|n IH]; intros j h H.
  - destruct h; [reflexivity | cbn in H; lia].
  - destruct h as [|a [|b h]]; [reflexivity | reflexivity |].
    cbn [Game.format_from Game.rows length]. cbn [length] in H.
    rewrite IH by lia.
    replace (S (S (length h)) + 1) with ((length h + 1) + 1 * 2) by lia.
    rewrite Nat.div_add by discriminate. lia.
Qed.

(** X21.  The list of moves has one row for every two moves of the game, the
    last one with an empty second place when the number of moves is odd:
    row number k, counted from 0, is numbered k + 1 and holds the moves of
    index 2k and 2k + 1 of the history. *)
Theorem move_rows (history : list jsstring) (k : nat) :
  2 * k < length history ->
  length (Game.rows (Game.formatted history)) = (length history + 1) / 2
  /\ nth_error (Game.rows (Game.formatted history)) k
     = Some (Game.mkRow (k + 1) (nth (2 * k) history [])
                        (nth (2 * k + 1) history [])).
Proof.
  intros H. split.
  - apply (rows_length (length history)). lia.
  - apply (rows_from 0 k history H).
Qed.

(** [move_rows] at the second row of a game of three moves. *)
Lemma move_rows_witness :
  2 * 1 < length [str "e4"; str "e5"; str "Nf3"]
  /\ length (Game.rows (Game.formatted [str "e4"; str "e5"; str "Nf3"]))
     = (length [str "e4"; str "e5"; str "Nf3"] + 1) / 2
  /\ nth_error (Game.rows (Game.formatted [str "e4"; str "e5"; str "Nf3"])) 1
     = Some (Game.mkRow (1 + 1)
               (nth (2 * 1) [str "e4"; str "e5"; str "Nf3"] [])
               (nth (2 * 1 + 1) [str "e4"; str "e5"; str "Nf3"] [])).
Proof.
  split; [cbn; lia |].
  apply (move_rows [str "e4"; str "e5"; str "Nf3"] 1). cbn. lia.
Defined.

(** X22.  After an utterance the last command of the page is the transcript,
    unless the utterance asks for a new game: the callback of the new game
    empties the last command, so the page then shows no command at all. *)
Theorem last_command_after_utterance (E : Game.Chess) (pg : Game.page E)
    (transcript : jsstring) :
  lastCommand (snd (fst (Game.onresult transcript pg)))
  = match parseVoiceCommand transcript with
    | Some NewGame => []
    | _ => transcript
    end.
Proof.
  unfold Game.onresult, Controller.onresult, Game.called.
  destruct (parseVoiceCommand transcript) as [[f t | | | sd]|];
    cbn [fst snd after fold_left Game.callback]; try reflexivity.
  destruct (snd (Game.handleVoiceMove f t (fst pg))); reflexivity.
Qed.

(** X23.  A move asked by voice changes the game as the same move asked on the
    board does.  When the engine accepts it, the page has the new position
    and the move is said to be played; when the engine refuses it, the game
    is as before and nothing at all is said. *)
Theorem voiced_move (E : Game.Chess) (pg : Game.page E)
    (transcript from to : jsstring) :
  parseVoiceCommand transcript = Some (Move from to) ->
  let (pg', out) := Game.onresult transcript pg in
  fst pg' = Game.handleSquareClick from to (fst pg)
  /\ match Game.Chess_move E (Game.gameRef (fst pg)) from to with
     | Some g =>
         Game.gameRef (fst pg') = g
         /\ filter is_speech out
            = [Speak (str "Move " ++ from ++ str " to " ++ to ++ str " played.")]
     | None => fst pg' = fst pg /\ filter is_speech out = []
     end.
Proof.
  intros H. unfold Game.onresult, Controller.onresult, Game.called.
  rewrite H. unfold Game.handleVoiceMove, Game.handleSquareClick.
  destruct (Game.Chess_move E (Game.gameRef (fst pg)) from to) as [g|] eqn:M;
    cbn [fst snd after fold_left Game.callback]; unfold Game.handleVoiceMove;
    cbn [fst snd]; rewrite M; cbn; repeat split.
Qed.

(** [voiced_move] at "e2 to e4" on the first page of the recording
    engine. *)
Lemma voiced_move_witness :
  parseVoiceCommand (str "e2 to e4") = Some (Move (str "e2") (str "e4"))
  /\ let (pg', out) :=
       Game.onresult (str "e2 to e4")
         (@Game.initial Game.recorder, Controller.initial) in
     fst pg' = Game.handleSquareClick (str "e2") (str "e4")
                 (fst (@Game.initial Game.recorder, Controller.initial))
     /\ match Game.Chess_move Game.recorder
                (Game.gameRef (fst (@Game.initial Game.recorder,
                                    Controller.initial)))
                (str "e2") (str "e4") with
        | Some g =>
            Game.gameRef (fst pg') = g
            /\ filter is_speech out
               = [Speak (str "Move " ++ str "e2" ++ str " to " ++ str "e4"
                         ++ str " played.")]
        | None =>
            fst pg' = fst (@Game.initial Game.recorder, Controller.initial)
            /\ filter is_speech out = []
        end.
Proof.
  assert (P : parseVoiceCommand (str "e2 to e4")
              = Some (Move (str "e2") (str "e4"))) by (vm_compute; reflexivity).
  split; [exact P |].
  apply (voiced_move Game.recorder
           (@Game.initial Game.recorder, Controller.initial)
           (str "e2 to e4") (str "e2") (str "e4")).
  exact P.
Defined.
